(** * Fourier epicycle animation: ring buffer, DFT and frame loop

    A shallow embedding of the three JavaScript sources of the home page
    animation:

    - [list.js]  : the double-ended growable buffer ([class List]; its
      [List.create] wraps a list in a proxy that routes [list[i]] to
      [get(i)]),
    - [dft.js]   : the direct discrete Fourier transform ([dft]),
    - [home-animation.js] : bounding box, scale, [draw] and [resizeCanvas].

    Integers (indices, capacities, lengths) are [Z].  A JavaScript array is
    an object keyed by integers, so the buffer is a finite map [gmap Z _]:
    reading a key that was never written yields [Undefined], and writing at
    a negative key or past the allocated cells simply adds a property, as
    in JavaScript.  Trigonometry and the animation clock are over the real
    numbers (exact arithmetic); the bounding box and the scale are over
    the rationals extended with the IEEE special values. *)

From Stdlib Require Import ZArith Lia Reals Lra QArith Qminmax Permutation Sorted.
From Stdlib Require Lqa.
From stdpp Require Import base option list gmap pretty.

(* ===================================================================== *)
(** * Part I: definitions                                                 *)
(* ===================================================================== *)

(** ** list.js *)

Module RingSequence.

Section list_class.
Context {A : Type}.

(** What a buffer cell, or the result of [get] and [pop], can hold. *)
Inductive jsval : Type :=
| Undefined
| Null
| Item (a : A).

(** The fields of [class List]. *)
Record List : Type := mkList {
  initialCapacity : Z;
  _capacity : Z;
  _buffer : gmap Z jsval;
  _head : Z;
  _tail : Z;
  length : Z
}.

(** [arr[k]] : an absent property reads as [undefined]. *)
Definition read (arr : gmap Z jsval) (k : Z) : jsval :=
  default Undefined (arr !! k).

(** [new Array(n).fill(null)] *)
Definition new_Array_fill_null (n : Z) : gmap Z jsval :=
  list_to_map ((fun k => (k, Null)) <$> seqZ 0 n).

(** [constructor(initialCapacity)]; [Math.floor(c / 2)] is [c / 2] on [Z]. *)
Definition constructor (c : Z) : List :=
  let head := (c / 2)%Z in
  {| initialCapacity := c;
     _capacity := c;
     _buffer := new_Array_fill_null c;
     _head := head;
     _tail := (head - 1)%Z;
     length := 0 |}.

(** The copy loop of [_resize]:
    [for (i = 0; i < length; i++) newBuffer[newHead + i] = buffer[head + i]]. *)
Definition copy_loop (old : gmap Z jsval) (head newHead len : Z)
    (newBuffer : gmap Z jsval) : gmap Z jsval :=
  foldl (fun nb i => <[(newHead + i)%Z := read old (head + i)%Z]> nb)
        newBuffer (seqZ 0 len).

Definition _resize (l : List) : List :=
  let newCapacity := (_capacity l * 2)%Z in
  let newBuffer := new_Array_fill_null newCapacity in
  let newHead := ((newCapacity - length l) / 2)%Z in
  let newBuffer := copy_loop (_buffer l) (_head l) newHead (length l) newBuffer in
  {| initialCapacity := initialCapacity l;
     _capacity := newCapacity;
     _buffer := newBuffer;
     _head := newHead;
     _tail := (newHead + length l - 1)%Z;
     length := length l |}.

(** [prepend(item)] returns the new length. *)
Definition prepend (item : A) (l : List) : Z * List :=
  let l := if decide (_head l = 0%Z) then _resize l else l in
  let head := (_head l - 1)%Z in
  let len := (length l + 1)%Z in
  (len,
   {| initialCapacity := initialCapacity l;
      _capacity := _capacity l;
      _buffer := <[head := Item item]> (_buffer l);
      _head := head;
      _tail := _tail l;
      length := len |}).

(** [append(item)] returns the new length. *)
Definition append (item : A) (l : List) : Z * List :=
  let l := if decide (_tail l = (_capacity l - 1)%Z) then _resize l else l in
  let tail := (_tail l + 1)%Z in
  let len := (length l + 1)%Z in
  (len,
   {| initialCapacity := initialCapacity l;
      _capacity := _capacity l;
      _buffer := <[tail := Item item]> (_buffer l);
      _head := _head l;
      _tail := tail;
      length := len |}).

Definition pop (l : List) : jsval * List :=
  if decide (length l = 0%Z) then (Undefined, l)
  else
    let item := read (_buffer l) (_tail l) in
    (item,
     {| initialCapacity := initialCapacity l;
        _capacity := _capacity l;
        _buffer := <[_tail l := Null]> (_buffer l);
        _head := _head l;
        _tail := (_tail l - 1)%Z;
        length := (length l - 1)%Z |}).

Definition get (index : Z) (l : List) : jsval :=
  if (index <? 0)%Z || (index >=? length l)%Z then Undefined
  else read (_buffer l) (_head l + index)%Z.

Definition set (index : Z) (value : A) (l : List) : bool * List :=
  if (index <? 0)%Z || (index >=? length l)%Z then (false, l)
  else
    (true,
     {| initialCapacity := initialCapacity l;
        _capacity := _capacity l;
        _buffer := <[(_head l + index)%Z := Item value]> (_buffer l);
        _head := _head l;
        _tail := _tail l;
        length := length l |}).

Definition clear (l : List) : List :=
  let c := initialCapacity l in
  let head := (c / 2)%Z in
  {| initialCapacity := initialCapacity l;
     _capacity := c;
     _buffer := new_Array_fill_null c;
     _head := head;
     _tail := (head - 1)%Z;
     length := 0 |}.

(** The iterator and [forEach] visit [get(0)], ..., [get(length - 1)]. *)
Definition to_list (l : List) : list jsval :=
  (fun i => get i l) <$> seqZ 0 (length l).

(** *** Call histories *)

Inductive op : Type :=
| Prepend (item : A)
| Append (item : A)
| Pop
| SetAt (index : Z) (value : A)
| Clear.

(** What a call hands back to its caller. *)
Inductive result : Type :=
| RLength (n : Z)
| RValue (v : jsval)
| RBool (b : bool)
| RVoid.

Definition exec (o : op) (l : List) : result * List :=
  match o with
  | Prepend a => let '(n, l') := prepend a l in (RLength n, l')
  | Append a => let '(n, l') := append a l in (RLength n, l')
  | Pop => let '(v, l') := pop l in (RValue v, l')
  | SetAt i v => let '(b, l') := set i v l in (RBool b, l')
  | Clear => (RVoid, clear l)
  end.

Definition step (l : List) (o : op) : List := (exec o l).2.

Definition run (ops : list op) (l : List) : List := foldl step l ops.

(** Everything a client can see of a run: the result of every call,
    and the capacity after it (where the resizes happened). *)
Fixpoint trace (ops : list op) (l : List) : list (result * Z) :=
  match ops with
  | [] => []
  | o :: ops' =>
      let '(r, l') := exec o l in (r, _capacity l') :: trace ops' l'
  end.

(** The logical sequence a call history denotes. *)
Definition history_step (s : list A) (o : op) : list A :=
  match o with
  | Prepend a => a :: s
  | Append a => s ++ [a]
  | Pop => removelast s
  | SetAt i v => if (i <? 0)%Z then s else <[Z.to_nat i := v]> s
  | Clear => []
  end.

Definition history (ops : list op) : list A := foldl history_step [] ops.

(** The representation invariant the class aims at: the window
    [_head .. _tail] lies inside the allocated cells. *)
Definition window_ok (l : List) : Prop :=
  (0 <= _head l)%Z /\ (_tail l <= _capacity l - 1)%Z /\
  (length l = _tail l - _head l + 1)%Z /\ (0 <= length l)%Z.

(** The cells [_head], [_head + 1], ... hold the logical sequence [s]. *)
Definition repr (l : List) (s : list A) : Prop :=
  length l = Z.of_nat (Datatypes.length s) /\
  _tail l = (_head l + length l - 1)%Z /\
  forall (j : nat) a, s !! j = Some a ->
    read (_buffer l) (_head l + Z.of_nat j) = Item a.

(** A list created with room for two or more, whose window is inside the
    allocated cells. *)
Definition roomy (l : List) : Prop :=
  (2 <= initialCapacity l)%Z /\ (initialCapacity l <= _capacity l)%Z /\ window_ok l.

End list_class.

Arguments jsval : clear implicits.
Arguments List : clear implicits.
Arguments op : clear implicits.
Arguments result : clear implicits.

(** [map(callback)]: a new list of capacity [this.length], filled by [append]. *)
Definition map {A B : Type} (callback : jsval A -> Z -> B) (l : List A) : List B :=
  foldl (fun res i => (append (callback (get i l) i) res).2)
        (constructor (length l)) (seqZ 0 (length l)).

(** *** Iteration *)

Section iteration.
Context {A : Type}.

(** [next()] of the iterator object, whose [index] starts at 0: the
    element at [index] and the index moved on, or [done]. *)
Definition next (index : Z) (l : List A) : option (jsval A) * Z :=
  if (index <? length l)%Z then (Some (get index l), (index + 1)%Z)
  else (None, index).

(** A consumer ([for ... of], spread) calling [next()] until [done];
    [fuel] bounds the number of calls. *)
Fixpoint drain (fuel : nat) (index : Z) (l : List A) : option (list (jsval A)) :=
  match fuel with
  | O => None
  | S fuel' =>
      match next index l with
      | (Some v, index') => cons v <$> drain fuel' index' l
      | (None, _) => Some []
      end
  end.

(** [forEach(callback)], for a callback that acts on a state of its own
    and leaves the list alone. *)
Definition forEach {S : Type} (callback : jsval A -> Z -> S -> S)
    (l : List A) (s : S) : S :=
  foldl (fun s i => callback (get i l) i s) s (seqZ 0 (length l)).

(** The calls of a first-in first-out use: each item is prepended and
    the oldest one popped. *)
Definition queue_calls (items : list A) : list (op A) :=
  items ≫= (fun a => [Prepend a; Pop]).

End iteration.

End RingSequence.

(** ** list.js: the proxy of [List.create] *)

Module ListProxy.
Import RingSequence.

(** A character matched by [\d]. *)
Definition is_digit (ch : Ascii.ascii) : bool :=
  (48 <=? Ascii.nat_of_ascii ch)%nat && (Ascii.nat_of_ascii ch <=? 57)%nat.

Fixpoint all_digits (s : string) : bool :=
  match s with
  | EmptyString => true
  | String ch s' => is_digit ch && all_digits s'
  end.

(** [/^\d+$/.test(prop)] *)
Definition is_index (prop : string) : bool :=
  match prop with
  | EmptyString => false
  | _ => all_digits prop
  end.

Definition digit_value (ch : Ascii.ascii) : Z :=
  (Z.of_nat (Ascii.nat_of_ascii ch) - 48)%Z.

Fixpoint parse_digits (acc : Z) (s : string) : Z :=
  match s with
  | EmptyString => acc
  | String ch s' => parse_digits (acc * 10 + digit_value ch)%Z s'
  end.

(** [parseInt(prop)], for a string of digits. *)
Definition parseInt (prop : string) : Z := parse_digits 0 prop.

(** The [get] trap, for a property named by a string: an index goes to
    [target.get], anything else to the target's own property,
    [own prop]. *)
Definition proxy_get {A P : Type} (own : string -> P) (target : List A)
    (prop : string) : jsval A + P :=
  if is_index prop then inl (get (parseInt prop) target) else inr (own prop).

End ListProxy.

(** ** dft.js *)

Module Dft.
Local Open Scope R_scope.

(** An input sample [{re, im}]. *)
Record complex : Type := mkComplex { re : R; im : R }.

(** An output entry [{re, im, freq, amp, phase}]. *)
Record descriptor : Type := mkDescriptor {
  d_re : R;
  d_im : R;
  freq : nat;
  amp : R;
  phase : R
}.

(** [Math.hypot(a, b)] *)
Definition hypot (a b : R) : R := sqrt (a * a + b * b).

(** [Math.atan2(y, x)], by quadrant. *)
Definition atan2 (y x : R) : R :=
  if Rlt_dec 0 x then atan (y / x)
  else if Rlt_dec x 0 then
    (if Rle_dec 0 y then atan (y / x) + PI else atan (y / x) - PI)
  else if Rlt_dec 0 y then PI / 2
  else if Rlt_dec y 0 then - (PI / 2)
  else 0.

Definition zero : complex := {| re := 0; im := 0 |}.

(** One round of the inner loop: [re += ...; im += ...] for sample [n]. *)
Definition dft_inner (x : list complex) (N k : nat) (acc : R * R) (n : nat) : R * R :=
  let phi := 2 * PI * INR k * INR n / INR N in
  let xn := nth n x zero in
  (acc.1 + (re xn * cos phi + im xn * sin phi),
   acc.2 + (- re xn * sin phi + im xn * cos phi)).

(** The body of the outer loop for frequency [k]. *)
Definition dft_outer (x : list complex) (N k : nat) : descriptor :=
  let acc := foldl (dft_inner x N k) (0, 0) (seq 0 N) in
  let re_ := acc.1 / INR N in
  let im_ := acc.2 / INR N in
  {| d_re := re_; d_im := im_; freq := k;
     amp := hypot re_ im_; phase := atan2 im_ re_ |}.

(** [dft(x)]: [X = []], then [X.push(...)] for [k = 0 .. N-1]. *)
Definition dft (x : list complex) : list descriptor :=
  let N := Datatypes.length x in
  foldl (fun X k => X ++ [dft_outer x N k]) [] (seq 0 N).

(** *** The transform as the specification writes it *)

(** [Rsum N f] is [f 0 + ... + f (N-1)]. *)
Fixpoint Rsum (N : nat) (f : nat -> R) : R :=
  match N with
  | O => 0
  | S N' => Rsum N' f + f N'
  end.

Definition spec_re (x : list complex) (k : nat) : R :=
  let N := Datatypes.length x in
  1 / INR N *
  Rsum N (fun n => re (nth n x zero) * cos (2 * PI * INR k * INR n / INR N)
                 + im (nth n x zero) * sin (2 * PI * INR k * INR n / INR N)).

Definition spec_im (x : list complex) (k : nat) : R :=
  let N := Datatypes.length x in
  1 / INR N *
  Rsum N (fun n => - re (nth n x zero) * sin (2 * PI * INR k * INR n / INR N)
                 + im (nth n x zero) * cos (2 * PI * INR k * INR n / INR N)).

(** The samples moved by [c]. *)
Definition translate (c : complex) (x : list complex) : list complex :=
  (fun p => {| re := re p + re c; im := im p + im c |}) <$> x.

End Dft.

(** ** home-animation.js *)

Module HomeAnimation.
Import Dft.

(** *** Bounding box and scale

    The bounding box only compares, subtracts, divides, multiplies and
    takes a minimum, so it is evaluated over the rationals extended with
    the special values of JavaScript numbers.  Rounding and overflow are
    not modelled; a zero stands for [+0], which is what a difference
    [a - a] yields. *)

Inductive num : Type :=
| Fin (q : Q)
| PosInf
| NegInf
| NaN.

Definition is_finite (a : num) : bool :=
  match a with Fin _ => true | _ => false end.

(** [a < b] *)
Definition js_lt (a b : num) : bool :=
  match a, b with
  | NaN, _ | _, NaN => false
  | Fin p, Fin q => if Qlt_le_dec p q then true else false
  | Fin _, PosInf => true
  | Fin _, NegInf => false
  | PosInf, _ => false
  | NegInf, NegInf => false
  | NegInf, _ => true
  end.

(** [a > b] *)
Definition js_gt (a b : num) : bool := js_lt b a.

(** [a - b] *)
Definition js_sub (a b : num) : num :=
  match a, b with
  | NaN, _ | _, NaN => NaN
  | Fin p, Fin q => Fin (p - q)
  | Fin _, PosInf => NegInf
  | Fin _, NegInf => PosInf
  | PosInf, PosInf => NaN
  | PosInf, _ => PosInf
  | NegInf, NegInf => NaN
  | NegInf, _ => NegInf
  end.

(** [a / b]; a finite number over zero is infinite, or [NaN] for [0 / 0]. *)
Definition js_div (a b : num) : num :=
  match a, b with
  | NaN, _ | _, NaN => NaN
  | Fin p, Fin q =>
      if Qeq_bool q 0 then
        match (p ?= 0)%Q with Gt => PosInf | Lt => NegInf | Eq => NaN end
      else Fin (p / q)
  | Fin _, _ => Fin 0
  | PosInf, Fin q => if Qle_bool 0 q then PosInf else NegInf
  | NegInf, Fin q => if Qle_bool 0 q then NegInf else PosInf
  | _, _ => NaN
  end.

(** [a * b] *)
Definition js_mul (a b : num) : num :=
  let signed (pos : bool) (q : Q) : num :=
    match (q ?= 0)%Q with
    | Eq => NaN
    | Gt => if pos then PosInf else NegInf
    | Lt => if pos then NegInf else PosInf
    end in
  match a, b with
  | NaN, _ | _, NaN => NaN
  | Fin p, Fin q => Fin (p * q)
  | Fin p, PosInf | PosInf, Fin p => signed true p
  | Fin p, NegInf | NegInf, Fin p => signed false p
  | PosInf, PosInf | NegInf, NegInf => PosInf
  | PosInf, NegInf | NegInf, PosInf => NegInf
  end.

(** [Math.min(a, b)] *)
Definition js_min (a b : num) : num :=
  match a, b with
  | NaN, _ | _, NaN => NaN
  | _, _ => if js_lt b a then b else a
  end.

Record bounds : Type := mkBounds {
  minX : num; maxX : num; minY : num; maxY : num
}.

(** The four [if]s run for one point [pt] of [helloPath.forEach]. *)
Definition bounds_step (b : bounds) (pt : Q * Q) : bounds :=
  {| minX := if js_lt (Fin pt.1) (minX b) then Fin pt.1 else minX b;
     maxX := if js_gt (Fin pt.1) (maxX b) then Fin pt.1 else maxX b;
     minY := if js_lt (Fin pt.2) (minY b) then Fin pt.2 else minY b;
     maxY := if js_gt (Fin pt.2) (maxY b) then Fin pt.2 else maxY b |}.

Definition path_bounds (helloPath : list (Q * Q)) : bounds :=
  foldl bounds_step
        {| minX := PosInf; maxX := NegInf; minY := PosInf; maxY := NegInf |}
        helloPath.

(** After at least one point, all four bounds are finite and ordered. *)
Definition boxed (b : bounds) : Prop :=
  exists x0 x1 y0 y1 : Q,
    b = {| minX := Fin x0; maxX := Fin x1; minY := Fin y0; maxY := Fin y1 |} /\
    (x0 <= x1)%Q /\ (y0 <= y1)%Q.

Definition designWidth (helloPath : list (Q * Q)) : num :=
  js_sub (maxX (path_bounds helloPath)) (minX (path_bounds helloPath)).

Definition designHeight (helloPath : list (Q * Q)) : num :=
  js_sub (maxY (path_bounds helloPath)) (minY (path_bounds helloPath)).

Definition scaleX (cssWidth : num) (helloPath : list (Q * Q)) : num :=
  js_div cssWidth (designWidth helloPath).

Definition scaleY (cssHeight : num) (helloPath : list (Q * Q)) : num :=
  js_div cssHeight (designHeight helloPath).

(** [Math.min(scaleX, scaleY) * 0.9] *)
Definition scale (cssWidth cssHeight : num) (helloPath : list (Q * Q)) : num :=
  js_mul (js_min (scaleX cssWidth helloPath) (scaleY cssHeight helloPath))
         (Fin (9 # 10)).

(** *** Descriptors *)

Local Open Scope R_scope.

Definition complexPoints (helloPath : list (Q * Q)) : list complex :=
  (fun pt => {| re := Q2R pt.1; im := Q2R pt.2 |}) <$> helloPath.

(** [.sort((a, b) => b.amp - a.amp)]: a stable sort, largest amplitude
    first; an insertion sort stands for the host's. *)
Fixpoint insert_by_amp (d : descriptor) (ds : list descriptor) : list descriptor :=
  match ds with
  | [] => [d]
  | e :: ds' =>
      if Rle_dec (amp e) (amp d) then d :: e :: ds'
      else e :: insert_by_amp d ds'
  end.

Definition sort_by_amp (ds : list descriptor) : list descriptor :=
  foldr insert_by_amp [] ds.

Definition fourier (helloPath : list (Q * Q)) : list descriptor :=
  sort_by_amp (dft (complexPoints helloPath)).

(** *** The vector chain of [draw] *)

(** [x += radius * Math.cos(freq * time + phase)], and the same for [y]. *)
Definition epicycle_step (time : R) (xy : R * R) (d : descriptor) : R * R :=
  (xy.1 + amp d * cos (INR (freq d) * time + phase d),
   xy.2 + amp d * sin (INR (freq d) * time + phase d)).

Definition epicycle (ds : list descriptor) (time : R) : R * R :=
  foldl (epicycle_step time) (0, 0) ds.

(** *** Animation state and the frame scheduler *)

(** A trail entry [{x, y}]. *)
Record tip : Type := mkTip { x : R; y : R }.

Record state : Type := mkState {
  time : R;
  path : RingSequence.List tip;
  lastFrameTime : R;
  animationFrameId : option nat
}.

(** The host's list of frame requests: those still to be run, and the
    handle the next request gets (handles count from 1). *)
Record scheduler : Type := mkScheduler {
  pending : gset nat;
  next_handle : nat
}.

Definition requestAnimationFrame (h : scheduler) : nat * scheduler :=
  (next_handle h,
   {| pending := {[next_handle h]} ∪ pending h;
      next_handle := S (next_handle h) |}).

(** A request leaves the list when it is cancelled, and when the host
    takes it to run its callback. *)
Definition remove_request (id : nat) (h : scheduler) : scheduler :=
  {| pending := pending h ∖ {[id]}; next_handle := next_handle h |}.

Definition cancelAnimationFrame (id : nat) (h : scheduler) : scheduler :=
  remove_request id h.

(** [a % b] keeps the sign of [a]: [a - b * trunc (a / b)]. *)
Definition trunc (r : R) : Z :=
  if Rle_dec 0 r then Int_part r else (- Int_part (- r))%Z.

Definition js_rem (a b : R) : R := a - b * IZR (trunc (a / b)).

Definition animationSpeed : R := 1.

Section animation.
Variable ds : list descriptor.   (* [fourier] *)

(** [dt = (2 * Math.PI) / fourier.length] *)
Definition dt : R := 2 * PI / INR (Datatypes.length ds).

(** The state at the end of the script's set-up, before the first
    [resizeCanvas()]. *)
Definition boot : state * scheduler :=
  ({| time := 0;
      path := RingSequence.constructor (Z.of_nat (Datatypes.length ds));
      lastFrameTime := 0;
      animationFrameId := None |},
   {| pending := ∅; next_handle := 1 |}).

(** [resizeCanvas()], less the canvas geometry. *)
Definition resizeCanvas (w : state * scheduler) : state * scheduler :=
  let '(s, h) := w in
  let h :=
    match animationFrameId s with
    | Some id => if decide (id = 0%nat) then h else cancelAnimationFrame id h
    | None => h
    end in
  let path := RingSequence.clear (path s) in
  let '(id, h) := requestAnimationFrame h in
  ({| time := 0; path := path; lastFrameTime := 0;
      animationFrameId := Some id |}, h).

(** The body of [if (elapsed > 1000 / 60 / animationSpeed) { ... }],
    less the drawing calls. *)
Definition frame (currentTime : R) (s : state) : state :=
  let xy := epicycle ds (time s) in
  let path := (RingSequence.prepend {| x := xy.1; y := xy.2 |} (path s)).2 in
  let time := time s + dt in
  if Rge_dec time (2 * PI) then
    {| time := js_rem time (2 * PI);
       path := RingSequence.clear path;
       lastFrameTime := currentTime;
       animationFrameId := animationFrameId s |}
  else
    {| time := time;
       path := path;
       lastFrameTime := currentTime;
       animationFrameId := animationFrameId s |}.

(** [if (lastFrameTime === 0) lastFrameTime = currentTime;] *)
Definition stamped (currentTime : R) (s : state) : state :=
  if Req_dec_T (lastFrameTime s) 0 then
    {| time := time s; path := path s; lastFrameTime := currentTime;
       animationFrameId := animationFrameId s |}
  else s.

(** [draw(currentTime)] *)
Definition draw (currentTime : R) (w : state * scheduler) : state * scheduler :=
  let '(s, h) := w in
  let s := stamped currentTime s in
  let elapsed := currentTime - lastFrameTime s in
  let s :=
    if Rgt_dec elapsed (1000 / 60 / animationSpeed) then frame currentTime s
    else s in
  let '(id, h) := requestAnimationFrame h in
  ({| time := time s; path := path s; lastFrameTime := lastFrameTime s;
      animationFrameId := Some id |}, h).

(** What the page reacts to: a [resize] of the window, or the host
    running the frame request [handle] at time [currentTime].  The host
    runs a request once, and only while it is pending. *)
Inductive event : Type :=
| Resize
| Tick (handle : nat) (currentTime : R).

Definition react (w : state * scheduler) (e : event) : state * scheduler :=
  match e with
  | Resize => resizeCanvas w
  | Tick handle currentTime =>
      if decide (handle ∈ pending w.2) then
        draw currentTime (w.1, remove_request handle w.2)
      else w
  end.

(** The page after its set-up (which ends in [resizeCanvas()]) and a
    sequence of events. *)
Definition play (es : list event) : state * scheduler :=
  foldl react (resizeCanvas boot) es.

(** Whether [draw(currentTime)] finds its throttle open in state [s]. *)
Definition throttle_open (currentTime : R) (s : state) : Prop :=
  currentTime - (if Req_dec_T (lastFrameTime s) 0 then currentTime
                 else lastFrameTime s)
  > 1000 / 60 / animationSpeed.

End animation.

(** *** Notions used to state the properties *)

(** The sum of a list of reals, and the share of one descriptor in the
    tip of the chain at time [t]. *)
Definition Rlist_sum (l : list R) : R := foldr Rplus 0 l.

Definition x_part (t : R) (d : descriptor) : R :=
  amp d * cos (INR (freq d) * t + phase d).

Definition y_part (t : R) (d : descriptor) : R :=
  amp d * sin (INR (freq d) * t + phase d).

(** The clock counts the trail: [time = length * dt], with fewer than
    [N] points on the trail. *)
Definition clock_ok (ds : list descriptor) (s : state) : Prop :=
  (0 <= RingSequence.length (path s) < Z.of_nat (Datatypes.length ds))%Z /\
  time s = IZR (RingSequence.length (path s)) * dt ds.

(** Exactly one request is pending, the one [animationFrameId] records. *)
Definition one_request (w : state * scheduler) : Prop :=
  exists id : nat,
    animationFrameId w.1 = Some id /\ id <> 0%nat /\
    pending w.2 = {[id]} /\ (id < next_handle w.2)%nat.

Definition one_circle : list descriptor :=
  [{| d_re := 5; d_im := 0; freq := 0; amp := 5; phase := 0 |}].

End HomeAnimation.

(** ** home-animation.js: centre of the design and the frame's transform *)

Module View.
Import HomeAnimation.
Local Open Scope Q_scope.

(** [a + b] *)
Definition js_add (a b : num) : num :=
  match a, b with
  | NaN, _ | _, NaN => NaN
  | Fin p, Fin q => Fin (p + q)
  | Fin _, PosInf => PosInf
  | Fin _, NegInf => NegInf
  | PosInf, NegInf => NaN
  | PosInf, _ => PosInf
  | NegInf, PosInf => NaN
  | NegInf, _ => NegInf
  end.

(** [-a] *)
Definition js_neg (a : num) : num :=
  match a with
  | Fin p => Fin (- p)
  | PosInf => NegInf
  | NegInf => PosInf
  | NaN => NaN
  end.

(** [minX + designWidth / 2] *)
Definition designCenterX (helloPath : list (Q * Q)) : num :=
  js_add (minX (path_bounds helloPath)) (js_div (designWidth helloPath) (Fin 2)).

(** [minY + designHeight / 2] *)
Definition designCenterY (helloPath : list (Q * Q)) : num :=
  js_add (minY (path_bounds helloPath)) (js_div (designHeight helloPath) (Fin 2)).

(** The current transform of the 2D context, as far as [draw] changes
    it (translations and scalings along the axes): the point [(x, y)] is
    drawn at [(a x + e, d y + f)]. *)
Record transform : Type := mkTransform { a : Q; d : Q; e : Q; f : Q }.

Definition apply (m : transform) (pt : Q * Q) : Q * Q :=
  (a m * pt.1 + e m, d m * pt.2 + f m).

(** The transform in which one unit is one CSS pixel (what
    [resizeCanvas] sets up with [ctx.scale(dpr, dpr)], seen in CSS
    pixels). *)
Definition css_pixels : transform := {| a := 1; d := 1; e := 0; f := 0 |}.

(** [ctx.translate(tx, ty)]; the context ignores the call when an
    argument is not finite. *)
Definition ctx_translate (tx ty : num) (m : transform) : transform :=
  match tx, ty with
  | Fin x, Fin y =>
      {| a := a m; d := d m; e := a m * x + e m; f := d m * y + f m |}
  | _, _ => m
  end.

(** [ctx.scale(sx, sy)]; ignored likewise. *)
Definition ctx_scale (sx sy : num) (m : transform) : transform :=
  match sx, sy with
  | Fin x, Fin y => {| a := a m * x; d := d m * y; e := e m; f := f m |}
  | _, _ => m
  end.

(** The three calls of the scaling logic of [draw]. *)
Definition draw_transform (cssWidth cssHeight : num)
    (helloPath : list (Q * Q)) (m : transform) : transform :=
  let scale := scale cssWidth cssHeight helloPath in
  let m := ctx_translate (js_div cssWidth (Fin 2)) (js_div cssHeight (Fin 2)) m in
  let m := ctx_scale scale scale m in
  ctx_translate (js_neg (designCenterX helloPath))
                (js_neg (designCenterY helloPath)) m.

(** The bounds [b] are those of the points [pts]: finite, around every
    point, and each one the coordinate of some point. *)
Definition encloses (pts : list (Q * Q)) (b : bounds) : Prop :=
  exists x0 x1 y0 y1 : Q,
    b = {| minX := Fin x0; maxX := Fin x1; minY := Fin y0; maxY := Fin y1 |} /\
    (forall pt, pt ∈ pts -> x0 <= pt.1 <= x1 /\ y0 <= pt.2 <= y1) /\
    (exists pt, pt ∈ pts /\ pt.1 = x0) /\ (exists pt, pt ∈ pts /\ pt.1 = x1) /\
    (exists pt, pt ∈ pts /\ pt.2 = y0) /\ (exists pt, pt ∈ pts /\ pt.2 = y1).

End View.

(** ** home-animation.js: what the trail holds *)

Module Trail.
Import Dft HomeAnimation.
Local Open Scope R_scope.

(** The entry [{x, y}] that a frame drawn at time [t] prepends. *)
Definition tip_at (ds : list descriptor) (t : R) : tip :=
  {| x := (epicycle ds t).1; y := (epicycle ds t).2 |}.

(** The tips of [k] frames in a row from time 0, newest first. *)
Fixpoint trail_after (ds : list descriptor) (k : nat) : list tip :=
  match k with
  | O => []
  | S k' => tip_at ds (INR k' * dt ds) :: trail_after ds k'
  end.

(** The trail holds the tips of the [k] frames since the last reset,
    and the clock stands at [k * dt]. *)
Definition trail_ok (ds : list descriptor) (s : state) : Prop :=
  exists k : nat,
    (k < Datatypes.length ds)%nat /\
    time s = INR k * dt ds /\
    RingSequence.repr (path s) (trail_after ds k).

End Trail.

(** ** home-animation.js: a callback that runs although it was cancelled *)

Module Race.
Import Dft HomeAnimation.

(** The page, and the requests that [cancelAnimationFrame] was called on
    while they were pending and whose callback has not run since. *)
Record racing : Type := mkRacing {
  page : state * scheduler;
  cancelled : gset nat
}.

(** The request a call of [resizeCanvas()] cancels: the recorded one, if
    it is pending. *)
Definition cancelled_by_resize (w : state * scheduler) : gset nat :=
  match animationFrameId w.1 with
  | Some id =>
      if decide (id = 0%nat) then ∅
      else if decide (id ∈ pending w.2) then {[id]} else ∅
  | None => ∅
  end.

(** An event of the page as before, or the callback of a cancelled
    request running all the same.  The callback is [draw]; the host
    hands it nothing but the time. *)
Inductive racing_event : Type :=
| Honest (e : event)
| Late (handle : nat) (currentTime : R).

Definition race (ds : list descriptor) (r : racing) (e : racing_event) : racing :=
  match e with
  | Honest Resize =>
      {| page := resizeCanvas (page r);
         cancelled := cancelled r ∪ cancelled_by_resize (page r) |}
  | Honest (Tick handle currentTime) =>
      {| page := react ds (page r) (Tick handle currentTime);
         cancelled := cancelled r |}
  | Late handle currentTime =>
      if decide (handle ∈ cancelled r) then
        {| page := draw ds currentTime (page r);
           cancelled := cancelled r ∖ {[handle]} |}
      else r
  end.

Definition race_play (ds : list descriptor) (es : list racing_event) : racing :=
  foldl (race ds) {| page := resizeCanvas (boot ds); cancelled := ∅ |} es.

(** A callback that runs after its request was cancelled leaves time,
    trail and last frame time alone. *)
Definition late_ticks_discarded (ds : list descriptor) : Prop :=
  forall (es : list racing_event) (handle : nat) (ct : R),
    let r := race_play ds es in
    handle ∈ cancelled r ->
    time (page (race ds r (Late handle ct))).1 = time (page r).1 /\
    path (page (race ds r (Late handle ct))).1 = path (page r).1 /\
    lastFrameTime (page (race ds r (Late handle ct))).1 = lastFrameTime (page r).1.

(** One request is pending, the recorded one, and it is newer than every
    cancelled one. *)
Definition orderly (r : racing) : Prop :=
  exists id : nat,
    animationFrameId (page r).1 = Some id /\ id <> 0%nat /\
    pending (page r).2 = {[id]} /\ (id < next_handle (page r).2)%nat /\
    forall h, h ∈ cancelled r -> (h < id)%nat.

End Race.

(* ===================================================================== *)
(** * Part II: properties                                                 *)
(* ===================================================================== *)

Module RingSequenceFacts.
Import RingSequence.

Section facts.
Context {A : Type}.
Implicit Types (l : List A) (o : op A) (ops : list (op A)).

Example append_three_from_two (a b c : A) :
  let l := run [Append a; Append b; Append c] (constructor 2) in
  _capacity l = 4%Z /\ to_list l = [Item a; Item b; Item c].
Proof. vm_compute. split; reflexivity. Qed.

(** *** Reading the buffer *)

Lemma read_insert_eq (arr : gmap Z (jsval A)) k v : read (<[k := v]> arr) k = v.
Proof. unfold read. by rewrite lookup_insert_eq. Qed.

Lemma read_insert_ne (arr : gmap Z (jsval A)) k k' v :
  k <> k' -> read (<[k := v]> arr) k' = read arr k'.
Proof. intros Hne. unfold read. by rewrite lookup_insert_ne. Qed.

(** The copy loop moves cell [head + i] to cell [newHead + i]. *)
Lemma copy_loop_read (old nb : gmap Z (jsval A)) head newHead len i :
  (0 <= i < len)%Z ->
  read (copy_loop old head newHead len nb) (newHead + i) = read old (head + i).
Proof.
  unfold copy_loop. intros Hi.
  assert (Hin : i ∈ seqZ 0 len) by (apply elem_of_seqZ; lia).
  revert Hin. generalize (seqZ 0 len) as idx.
  induction idx as [|j idx IH] using rev_ind; intros Hin.
  - by apply elem_of_nil in Hin.
  - rewrite foldl_app. cbn [foldl].
    destruct (decide (j = i)) as [->|Hne].
    + apply read_insert_eq.
    + rewrite read_insert_ne by lia. apply IH.
      apply elem_of_app in Hin as [Hin|Hin]; [done|].
      apply list_elem_of_singleton in Hin. congruence.
Qed.

(** *** The buffer represents the logical sequence *)

Lemma repr_constructor c : repr (constructor c) ([] : list A).
Proof.
  unfold repr, constructor. cbn [length _head _tail _buffer Datatypes.length].
  split; [done|]. split; [lia|]. intros j a Hj. by rewrite lookup_nil in Hj.
Qed.

Lemma repr_clear l : repr (clear l) [].
Proof.
  unfold repr, clear. cbn [length _head _tail _buffer Datatypes.length].
  split; [done|]. split; [lia|]. intros j a Hj. by rewrite lookup_nil in Hj.
Qed.

Lemma repr_resize l s : repr l s -> repr (_resize l) s.
Proof.
  intros (Hlen & Htail & Hcells). unfold repr, _resize.
  cbn [length _head _tail _buffer]. split; [done|]. split; [lia|].
  intros j a Hj. rewrite copy_loop_read; [by apply Hcells|].
  apply lookup_lt_Some in Hj. lia.
Qed.

Lemma repr_prepend l s a : repr l s -> repr (prepend a l).2 (a :: s).
Proof.
  intros Hr. unfold prepend.
  set (l' := if decide (_head l = 0%Z) then _resize l else l).
  assert (Hr' : repr l' s)
    by (subst l'; case_decide; [by apply repr_resize | done]).
  clearbody l'. destruct Hr' as (Hlen & Htail & Hcells).
  unfold repr. cbn [snd length _head _tail _buffer Datatypes.length].
  split; [lia|]. split; [lia|].
  intros [|j] b Hj; cbn in Hj.
  - injection Hj as ->.
    replace (_head l' - 1 + Z.of_nat 0)%Z with (_head l' - 1)%Z by lia.
    apply read_insert_eq.
  - rewrite read_insert_ne by lia.
    replace (_head l' - 1 + Z.of_nat (S j))%Z with (_head l' + Z.of_nat j)%Z by lia.
    by apply Hcells.
Qed.

Lemma repr_append l s a : repr l s -> repr (append a l).2 (s ++ [a]).
Proof.
  intros Hr. unfold append.
  set (l' := if decide (_tail l = (_capacity l - 1)%Z) then _resize l else l).
  assert (Hr' : repr l' s)
    by (subst l'; case_decide; [by apply repr_resize | done]).
  clearbody l'. destruct Hr' as (Hlen & Htail & Hcells).
  unfold repr. cbn [snd length _head _tail _buffer].
  split; [rewrite length_app; cbn; lia|]. split; [lia|].
  intros j b Hj.
  destruct (decide (j < Datatypes.length s)%nat) as [Hlt|Hge].
  - rewrite lookup_app_l in Hj by done.
    rewrite read_insert_ne by lia. by apply Hcells.
  - rewrite lookup_app_r in Hj by lia.
    destruct (j - Datatypes.length s)%nat as [|?] eqn:E; cbn in Hj; [|done].
    injection Hj as ->.
    replace (_head l' + Z.of_nat j)%Z with (_tail l' + 1)%Z by lia.
    apply read_insert_eq.
Qed.

Lemma repr_pop l s : repr l s -> repr (pop l).2 (removelast s).
Proof.
  intros (Hlen & Htail & Hcells). unfold pop. case_decide as H0.
  - destruct s; [|cbn in Hlen; lia]. by repeat split.
  - rewrite removelast_firstn_len.
    repeat split; cbn [snd length _head _tail _buffer].
    + rewrite length_take. lia.
    + lia.
    + intros j b Hj. pose proof (lookup_lt_Some _ _ _ Hj) as Hlt.
      rewrite length_take in Hlt.
      rewrite lookup_take_lt in Hj by lia.
      rewrite read_insert_ne by lia. by apply Hcells.
Qed.

Lemma repr_set l s i v :
  repr l s ->
  repr (set i v l).2 (if (i <? 0)%Z then s else <[Z.to_nat i := v]> s).
Proof.
  intros (Hlen & Htail & Hcells). unfold set.
  destruct (Z.ltb_spec i 0) as [Hneg|Hnn]; cbn [orb]; [by repeat split|].
  destruct (Z.geb_spec i (length l)) as [Hge|Hlt]; cbn [snd].
  - rewrite list_insert_ge by lia. by repeat split.
  - repeat split; cbn [length _head _tail _buffer]; [by rewrite length_insert | done |].
    intros j b Hj. destruct (decide (j = Z.to_nat i)) as [->|Hne].
    + rewrite list_lookup_insert_eq in Hj by lia. injection Hj as ->.
      rewrite Z2Nat.id by lia. apply read_insert_eq.
    + rewrite list_lookup_insert_ne in Hj by done.
      rewrite read_insert_ne by lia. by apply Hcells.
Qed.

Lemma repr_step l s o : repr l s -> repr (step l o) (history_step s o).
Proof.
  intros Hr. destruct o as [a|a| |i v|]; unfold step, exec; cbn [history_step].
  - pose proof (repr_prepend l s a Hr). by destruct (prepend a l).
  - pose proof (repr_append l s a Hr). by destruct (append a l).
  - pose proof (repr_pop l s Hr). by destruct (pop l).
  - pose proof (repr_set l s i v Hr). by destruct (set i v l).
  - apply repr_clear.
Qed.

Lemma repr_foldl ops l s :
  repr l s -> repr (foldl step l ops) (foldl history_step s ops).
Proof.
  revert l s. induction ops as [|o ops IH]; intros l s Hr; [done|].
  cbn [foldl]. apply IH. by apply repr_step.
Qed.

Lemma repr_run c ops : repr (run ops (constructor c)) (history ops).
Proof. apply repr_foldl, repr_constructor. Qed.

Lemma repr_get l s i :
  repr l s -> (0 <= i < length l)%Z ->
  exists a, s !! Z.to_nat i = Some a /\ get i l = Item a.
Proof.
  intros (Hlen & Htail & Hcells) Hi.
  destruct (lookup_lt_is_Some_2 s (Z.to_nat i)) as [a Ha]; [lia|].
  exists a. split; [done|]. unfold get.
  destruct (Z.ltb_spec i 0); [lia|]. destruct (Z.geb_spec i (length l)); [lia|].
  cbn [orb]. rewrite <- (Z2Nat.id i) at 1 by lia. by apply Hcells.
Qed.

(** C4.  Starting from an empty list of any initial capacity [c >= 1],
    after any finite sequence of calls the length is that of the logical
    sequence determined by the call history (a prepend adds at index 0,
    an append at index length), and for every [0 <= i < length], [get(i)]
    returns its [i]-th element, however many resizes happened on the way. *)
Theorem get_matches_history (c : Z) ops (i : Z) :
  (1 <= c)%Z ->
  let l := run ops (constructor c) in
  length l = Z.of_nat (Datatypes.length (history ops)) /\
  ((0 <= i < length l)%Z ->
   exists a, history ops !! Z.to_nat i = Some a /\ get i l = Item a).
Proof.
  intros _ l. pose proof (repr_run c ops) as Hr. split.
  - apply Hr.
  - intros Hi. by apply repr_get.
Qed.

(** *** Capacity against length *)

Lemma roomy_constructor c : (2 <= c)%Z -> roomy (constructor (A:=A) c).
Proof.
  intros Hc. unfold roomy, window_ok, constructor.
  cbn [initialCapacity _capacity _head _tail length].
  pose proof (Z.div_pos c 2). pose proof (Z.div_lt_upper_bound c 2 c). lia.
Qed.

Lemma roomy_clear l : roomy l -> roomy (clear l).
Proof.
  intros (Hc & _ & _). unfold roomy, window_ok, clear.
  cbn [initialCapacity _capacity _head _tail length].
  pose proof (Z.div_pos (initialCapacity l) 2).
  pose proof (Z.div_lt_upper_bound (initialCapacity l) 2 (initialCapacity l)). lia.
Qed.

(** After a resize both ends have at least one free cell. *)
Lemma resize_headroom l :
  roomy l ->
  roomy (_resize l) /\ (1 <= _head (_resize l))%Z /\
  (_tail (_resize l) < _capacity (_resize l) - 1)%Z.
Proof.
  intros (Hc & Hcap & Hh & Ht & Hl & H0). unfold roomy, window_ok, _resize.
  cbn [initialCapacity _capacity _head _tail length].
  set (q := ((_capacity l * 2 - length l) / 2)%Z).
  assert (_capacity l * 2 - length l - 1 <= 2 * q <= _capacity l * 2 - length l)%Z.
  { subst q. pose proof (Z.div_mod (_capacity l * 2 - length l) 2).
    pose proof (Z.mod_pos_bound (_capacity l * 2 - length l) 2). lia. }
  lia.
Qed.

Lemma roomy_step l o : roomy l -> roomy (step l o).
Proof.
  intros Hr. destruct o as [a|a| |i v|]; unfold step, exec.
  - unfold prepend. case_decide as Hd.
    + destruct (resize_headroom l Hr) as ((Hc & Hcap & Hh & Ht & Hl & H0) & H1 & H2).
      unfold roomy, window_ok in *.
      cbn [snd initialCapacity _capacity _head _tail length]. lia.
    + destruct Hr as (Hc & Hcap & Hh & Ht & Hl & H0). unfold roomy, window_ok.
      cbn [snd initialCapacity _capacity _head _tail length]. lia.
  - unfold append. case_decide as Hd.
    + destruct (resize_headroom l Hr) as ((Hc & Hcap & Hh & Ht & Hl & H0) & H1 & H2).
      unfold roomy, window_ok in *.
      cbn [snd initialCapacity _capacity _head _tail length]. lia.
    + destruct Hr as (Hc & Hcap & Hh & Ht & Hl & H0). unfold roomy, window_ok.
      cbn [snd initialCapacity _capacity _head _tail length]. lia.
  - unfold pop. case_decide as Hd; [done|].
    destruct Hr as (Hc & Hcap & Hh & Ht & Hl & H0). unfold roomy, window_ok.
    cbn [snd initialCapacity _capacity _head _tail length]. lia.
  - unfold set. destruct (_ || _); [done|].
    destruct Hr as (Hc & Hcap & Hh & Ht & Hl & H0). unfold roomy, window_ok.
    cbn [snd initialCapacity _capacity _head _tail length]. lia.
  - by apply roomy_clear.
Qed.

Lemma roomy_run c ops : (2 <= c)%Z -> roomy (run ops (constructor c)).
Proof.
  intros Hc. unfold run. generalize (roomy_constructor c Hc).
  generalize (constructor (A:=A) c) as l.
  induction ops as [|o ops IH]; intros l Hl; [done|].
  cbn [foldl]. by apply IH, roomy_step.
Qed.

(** From an initial capacity of 2 or more, [capacity >= length] after
    every call. *)
Lemma capacity_ge_length_from_two c ops :
  (2 <= c)%Z ->
  let l := run ops (constructor c) in (length l <= _capacity l)%Z.
Proof.
  intros Hc l. destruct (roomy_run c ops Hc) as (_ & _ & Hh & Ht & Hl & H0).
  fold l in Hh, Ht, Hl, H0. lia.
Qed.

(** A call leaves the capacity alone, doubles it, or ([clear]) resets it. *)
Lemma capacity_step l o :
  _capacity (step l o) = _capacity l \/
  _capacity (step l o) = (_capacity l * 2)%Z \/
  (o = Clear /\ _capacity (step l o) = initialCapacity l).
Proof.
  destruct o as [a|a| |i v|]; unfold step, exec.
  - unfold prepend. case_decide; cbn; auto.
  - unfold append. case_decide; cbn; auto.
  - unfold pop. case_decide; cbn; auto.
  - unfold set. destruct (_ || _); cbn; auto.
  - cbn. auto.
Qed.

(** C5.  The invariant [capacity >= length] does not survive an initial
    capacity of 1: after [append(a)] the single cell is in use, the
    [prepend(b)] doubles the capacity to 2 but recentres the element at
    cell 0 again, so [b] is written at index -1, and from then on
    [_head] is never 0: [prepend(c)] does not resize and the length (3)
    exceeds the capacity (2). *)
Theorem capacity_one_overflows (a b c : A) :
  let l := run [Append a; Prepend b; Prepend c] (constructor 1) in
  _capacity l = 2%Z /\ length l = 3%Z /\ _head l = (-2)%Z /\
  ~ (length l <= _capacity l)%Z.
Proof.
  intros l.
  assert (Hc : _capacity l = 2%Z) by (vm_compute; reflexivity).
  assert (Hl : length l = 3%Z) by (vm_compute; reflexivity).
  assert (Hh : _head l = (-2)%Z) by (vm_compute; reflexivity).
  rewrite Hc, Hl, Hh. repeat split. lia.
Qed.

(** [map] over a one-element list creates such a list of capacity 1
    with its single cell in use. *)
Example map_singleton (a b c : A) :
  let l := map (fun v _ => v) (append a (constructor 16)).2 in
  _capacity l = 1%Z /\ length l = 1%Z /\ _head l = 0%Z /\
  _capacity (run [Prepend (Item b); Prepend (Item c)] l) = 2%Z /\
  length (run [Prepend (Item b); Prepend (Item c)] l) = 3%Z.
Proof. vm_compute. repeat split. Qed.

(** *** Out-of-range calls *)

(** C6.  [get(i)] with [i < 0] or [i >= length] returns [undefined]
    (whatever the buffer holds); [set(i, v)] with such an [i] returns
    [false] and leaves the whole state as it was; [pop()] on an empty
    list returns [undefined] and leaves the state as it was.  All three
    are total: no call raises. *)
Theorem out_of_range_is_harmless l (i : Z) (v : A) :
  (i < 0 \/ length l <= i)%Z ->
  get i l = Undefined /\
  set i v l = (false, l) /\
  (length l = 0%Z -> pop l = (Undefined, l)).
Proof.
  intros Hi. unfold get, set, pop.
  assert (Hb : (i <? 0)%Z || (i >=? length l)%Z = true).
  { destruct (Z.ltb_spec i 0); [done|].
    destruct (Z.geb_spec i (length l)); [done|lia]. }
  rewrite Hb. repeat split. intros H0. by rewrite decide_True.
Qed.

(** *** Length *)

Lemma length_prepend (a : A) l : length (prepend a l).2 = (length l + 1)%Z.
Proof. unfold prepend. by case_decide. Qed.

Lemma length_append (a : A) l : length (append a l).2 = (length l + 1)%Z.
Proof. unfold append. by case_decide. Qed.

Lemma length_clear l : length (clear l) = 0%Z.
Proof. reflexivity. Qed.

(** *** [clear] *)

Lemma initialCapacity_step l o : initialCapacity (step l o) = initialCapacity l.
Proof.
  destruct o as [a|a| |i v|]; unfold step, exec.
  - unfold prepend. by case_decide.
  - unfold append. by case_decide.
  - unfold pop. by case_decide.
  - unfold set. by destruct (_ || _).
  - done.
Qed.

Lemma initialCapacity_run ops l : initialCapacity (run ops l) = initialCapacity l.
Proof.
  unfold run. revert l. induction ops as [|o ops IH]; intros l; [done|].
  cbn [foldl]. by rewrite IH, initialCapacity_step.
Qed.

Lemma clear_constructor l : clear l = constructor (initialCapacity l).
Proof. reflexivity. Qed.

(** C7.  Whatever was done to a list created with initial capacity [c],
    [clear()] puts it in the very state of a fresh list of initial
    capacity [c] (length 0, capacity [c], same cells, same head and tail),
    so every later run of calls returns the same results and resizes at
    the same points on both. *)
Theorem clear_is_fresh (c : Z) ops ops' :
  let l := clear (run ops (constructor c)) in
  l = constructor c /\
  length l = 0%Z /\ _capacity l = c /\
  trace ops' l = trace ops' (constructor c) /\
  run ops' l = run ops' (constructor c).
Proof.
  intros l.
  assert (Hl : l = constructor c).
  { subst l. rewrite clear_constructor, initialCapacity_run. reflexivity. }
  rewrite Hl. repeat split.
Qed.

End facts.

Lemma get_matches_history_witness :
  (1 <= 2)%Z /\
  let l := run [Append 7%nat; Prepend 5%nat; Append 9%nat] (constructor 2) in
  length l = 3%Z /\ get 1 l = Item 7%nat.
Proof.
  split; [lia|].
  destruct (get_matches_history 2 [Append 7%nat; Prepend 5%nat; Append 9%nat] 1)
    as [Hlen Hget]; [lia|].
  split; [exact Hlen|].
  destruct Hget as (a & Ha & Hg); [rewrite Hlen; cbn; lia|].
  cbn in Ha. injection Ha as <-. exact Hg.
Defined.

Lemma out_of_range_is_harmless_witness :
  let l := constructor (A:=nat) 16 in
  (-1 < 0 \/ length l <= -1)%Z /\
  get (-1) l = Undefined /\ set (-1) 3%nat l = (false, l) /\
  pop l = (Undefined, l).
Proof.
  intros l. assert (Hi : (-1 < 0 \/ length l <= -1)%Z) by (left; lia).
  split; [exact Hi|].
  destruct (out_of_range_is_harmless l (-1) 3%nat Hi) as (Hg & Hs & Hp).
  split; [exact Hg|]. split; [exact Hs|]. apply Hp. reflexivity.
Defined.

End RingSequenceFacts.

Module DftFacts.
Import Dft.
Local Open Scope R_scope.

(** *** The loops as sums *)

Lemma push_loop {B : Type} (f : nat -> B) (ks : list nat) (X : list B) :
  foldl (fun X k => X ++ [f k]) X ks = X ++ (f <$> ks).
Proof.
  revert X. induction ks as [|k ks IH]; intros X; cbn.
  - by rewrite app_nil_r.
  - rewrite IH. by rewrite <- app_assoc.
Qed.

Lemma dft_as_map (x : list complex) :
  dft x = dft_outer x (Datatypes.length x) <$> seq 0 (Datatypes.length x).
Proof. unfold dft. by rewrite push_loop. Qed.

Lemma inner_loop (x : list complex) (N k M : nat) :
  foldl (dft_inner x N k) (0, 0) (seq 0 M) =
  (Rsum M (fun n => re (nth n x zero) * cos (2 * PI * INR k * INR n / INR N)
                  + im (nth n x zero) * sin (2 * PI * INR k * INR n / INR N)),
   Rsum M (fun n => - re (nth n x zero) * sin (2 * PI * INR k * INR n / INR N)
                  + im (nth n x zero) * cos (2 * PI * INR k * INR n / INR N))).
Proof.
  induction M as [|M IH]; [done|].
  rewrite seq_S, foldl_app, IH. reflexivity.
Qed.

Lemma dft_outer_re (x : list complex) (k : nat) :
  d_re (dft_outer x (Datatypes.length x) k) = spec_re x k.
Proof.
  unfold dft_outer, spec_re. cbn [d_re]. rewrite inner_loop. cbn [fst].
  unfold Rdiv. rewrite Rmult_1_l. apply Rmult_comm.
Qed.

Lemma dft_outer_im (x : list complex) (k : nat) :
  d_im (dft_outer x (Datatypes.length x) k) = spec_im x k.
Proof.
  unfold dft_outer, spec_im. cbn [d_im]. rewrite inner_loop. cbn [snd].
  unfold Rdiv. rewrite Rmult_1_l. apply Rmult_comm.
Qed.

Lemma dft_length (x : list complex) :
  Datatypes.length (dft x) = Datatypes.length x.
Proof. by rewrite dft_as_map, length_fmap, length_seq. Qed.

Lemma dft_lookup (x : list complex) (k : nat) :
  (k < Datatypes.length x)%nat ->
  dft x !! k = Some (dft_outer x (Datatypes.length x) k).
Proof.
  intros Hk. rewrite dft_as_map, list_lookup_fmap, lookup_seq_lt by done.
  reflexivity.
Qed.

(** C1.  [dft] returns exactly [N] descriptors in frequency order, and
    the one at index [k < N] has [re] and [im] equal to the normalised
    sums of the specification, [amp = sqrt (re^2 + im^2)],
    [phase = atan2 (im, re)] and [freq = k].  The transform is a function
    of its argument alone. *)
Theorem dft_meets_spec (x : list complex) (k : nat) :
  Datatypes.length (dft x) = Datatypes.length x /\
  ((k < Datatypes.length x)%nat ->
   exists d, dft x !! k = Some d /\
     d_re d = spec_re x k /\
     d_im d = spec_im x k /\
     amp d = sqrt ((d_re d)² + (d_im d)²) /\
     phase d = atan2 (d_im d) (d_re d) /\
     freq d = k).
Proof.
  split; [apply dft_length|]. intros Hk.
  exists (dft_outer x (Datatypes.length x) k).
  split; [by apply dft_lookup|].
  split; [apply dft_outer_re|]. split; [apply dft_outer_im|].
  repeat split.
Qed.

Lemma dft_meets_spec_witness :
  let x := [mkComplex 0 0; mkComplex 10 0; mkComplex 10 10; mkComplex 0 10] in
  (1 < Datatypes.length x)%nat /\
  exists d, dft x !! 1%nat = Some d /\
     d_re d = spec_re x 1 /\
     d_im d = spec_im x 1 /\
     amp d = sqrt ((d_re d)² + (d_im d)²) /\
     phase d = atan2 (d_im d) (d_re d) /\
     freq d = 1%nat.
Proof.
  intros x. assert (Hk : (1 < Datatypes.length x)%nat) by (cbn; lia).
  split; [exact Hk|]. exact (proj2 (dft_meets_spec x 1) Hk).
Defined.

(** *** Finite sums *)

Lemma Rsum_ext (N : nat) (f g : nat -> R) :
  (forall n, (n < N)%nat -> f n = g n) -> Rsum N f = Rsum N g.
Proof.
  induction N as [|N IH]; intros Hfg; [done|].
  cbn. rewrite IH by (intros; apply Hfg; lia). by rewrite Hfg by lia.
Qed.

Lemma Rsum_plus (N : nat) (f g : nat -> R) :
  Rsum N (fun n => f n + g n) = Rsum N f + Rsum N g.
Proof. induction N as [|N IH]; cbn; [lra | rewrite IH; lra]. Qed.

Lemma Rsum_scal (N : nat) (c : R) (f : nat -> R) :
  Rsum N (fun n => c * f n) = c * Rsum N f.
Proof. induction N as [|N IH]; cbn; [lra | rewrite IH; lra]. Qed.

Lemma Rsum_zero (N : nat) : Rsum N (fun _ => 0) = 0.
Proof. induction N as [|N IH]; cbn; [lra | rewrite IH; lra]. Qed.

Lemma Rsum_swap (N M : nat) (f : nat -> nat -> R) :
  Rsum N (fun k => Rsum M (fun m => f k m)) =
  Rsum M (fun m => Rsum N (fun k => f k m)).
Proof.
  induction N as [|N IH]; cbn.
  - by rewrite Rsum_zero.
  - by rewrite IH, <- Rsum_plus.
Qed.

(** Shifting the index by one trades the first term for the next one. *)
Lemma Rsum_shift (N : nat) (f : nat -> R) :
  Rsum N (fun k => f (S k)) = Rsum N f - f 0%nat + f N.
Proof. induction N as [|N IH]; cbn; [lra | rewrite IH; lra]. Qed.

Lemma Rsum_single (N n : nat) (g : nat -> R) :
  (n < N)%nat ->
  Rsum N (fun m => if decide (m = n) then g m else 0) = g n.
Proof.
  induction N as [|N IH]; intros Hn; [lia|]. cbn.
  destruct (decide (N = n)) as [->|Hne].
  - rewrite (Rsum_ext n _ (fun _ => 0)), Rsum_zero; [lra|].
    intros m Hm. by rewrite decide_False by lia.
  - rewrite IH by lia. lra.
Qed.

(** *** Roots of unity *)

(** If [N * theta] is a whole number of turns and [theta] is not, the
    [N] unit vectors at angles [k * theta] cancel. *)
Lemma unit_vectors_cancel (N : nat) (theta : R) :
  cos (INR N * theta) = 1 -> sin (INR N * theta) = 0 -> cos theta <> 1 ->
  Rsum N (fun k => cos (INR k * theta)) = 0 /\
  Rsum N (fun k => sin (INR k * theta)) = 0.
Proof.
  intros HcN HsN Hc.
  set (C := Rsum N (fun k => cos (INR k * theta))).
  set (S_ := Rsum N (fun k => sin (INR k * theta))).
  assert (HC : C * cos theta - S_ * sin theta = C).
  { pose proof (Rsum_shift N (fun k => cos (INR k * theta))) as Hsh.
    cbn beta in Hsh. rewrite HcN in Hsh.
    replace (INR 0 * theta) with 0 in Hsh by (cbn; lra). rewrite cos_0 in Hsh.
    rewrite (Rsum_ext N _ (fun k => cos theta * cos (INR k * theta)
                                   + - sin theta * sin (INR k * theta))) in Hsh.
    - rewrite Rsum_plus, !Rsum_scal in Hsh. fold C S_ in Hsh. lra.
    - intros k _. rewrite S_INR.
      replace ((INR k + 1) * theta) with (INR k * theta + theta) by lra.
      rewrite cos_plus. lra. }
  assert (HS : S_ * cos theta + C * sin theta = S_).
  { pose proof (Rsum_shift N (fun k => sin (INR k * theta))) as Hsh.
    cbn beta in Hsh. rewrite HsN in Hsh.
    replace (INR 0 * theta) with 0 in Hsh by (cbn; lra). rewrite sin_0 in Hsh.
    rewrite (Rsum_ext N _ (fun k => cos theta * sin (INR k * theta)
                                   + sin theta * cos (INR k * theta))) in Hsh.
    - rewrite Rsum_plus, !Rsum_scal in Hsh. fold C S_ in Hsh. lra.
    - intros k _. rewrite S_INR.
      replace ((INR k + 1) * theta) with (INR k * theta + theta) by lra.
      rewrite sin_plus. lra. }
  clearbody C S_.
  set (u := cos theta - 1). set (v := sin theta).
  assert (Hu : u <> 0) by (unfold u; lra).
  assert (H1 : C * u = S_ * v) by (unfold u, v; lra).
  assert (H2 : S_ * u = - C * v) by (unfold u, v; lra).
  assert (HCz : C * (u * u + v * v) = 0).
  { replace (C * (u * u + v * v)) with (C * u * u + C * v * v) by ring.
    rewrite H1. replace (S_ * v * u) with (S_ * u * v) by ring. rewrite H2. ring. }
  assert (Hpos : 0 < u * u + v * v).
  { assert (0 < u * u) by nra. assert (0 <= v * v) by nra. lra. }
  assert (HC0 : C = 0).
  { apply Rmult_integral in HCz as [?|?]; [done | lra]. }
  split; [done|]. subst C.
  assert (HSu : S_ * u = 0) by (rewrite H2; ring).
  apply Rmult_integral in HSu as [?|?]; [done | contradiction].
Qed.

(** The constant term of a square is its centre. *)
Example square_centre :
  let x := [mkComplex 0 0; mkComplex 10 0; mkComplex 10 10; mkComplex 0 10] in
  d_re (dft_outer x 4 0) = 5 /\ d_im (dft_outer x 4 0) = 5.
Proof.
  intros x. change 4%nat with (Datatypes.length x).
  rewrite dft_outer_re, dft_outer_im. unfold spec_re, spec_im.
  assert (H0 : forall n, 2 * PI * INR 0 * INR n / INR (Datatypes.length x) = 0)
    by (intros n; unfold Rdiv; cbn [INR]; ring).
  split.
  - rewrite (Rsum_ext _ _ (fun n => re (nth n x zero)))
      by (intros n _; rewrite H0, cos_0, sin_0; lra).
    cbn. lra.
  - rewrite (Rsum_ext _ _ (fun n => im (nth n x zero)))
      by (intros n _; rewrite H0, cos_0, sin_0; lra).
    cbn. lra.
Qed.

Lemma whole_turns (d : nat) :
  cos (2 * PI * INR d) = 1 /\ sin (2 * PI * INR d) = 0.
Proof.
  replace (2 * PI * INR d) with (0 + 2 * INR d * PI) by ring.
  rewrite cos_period, sin_period, cos_0, sin_0. done.
Qed.

Lemma cos_below_one (theta : R) : 0 < theta < 2 * PI -> cos theta <> 1.
Proof.
  intros [H0 H2] Hc.
  replace theta with (2 * (theta / 2)) in Hc by lra.
  rewrite cos_2a_sin in Hc.
  assert (0 < sin (theta / 2)) by (apply sin_gt_0; lra). nra.
Qed.

Lemma Rsum_const (N : nat) (c : R) : Rsum N (fun _ => c) = INR N * c.
Proof.
  induction N as [|N IH]; [cbn; lra|].
  rewrite S_INR. cbn [Rsum]. rewrite IH. lra.
Qed.

(** The [N] vectors at angles [k * 2 pi d / N] cancel for [0 < d < N]. *)
Lemma roots_cancel (N d : nat) :
  (0 < d < N)%nat ->
  Rsum N (fun k => cos (INR k * (2 * PI * INR d / INR N))) = 0 /\
  Rsum N (fun k => sin (INR k * (2 * PI * INR d / INR N))) = 0.
Proof.
  intros [Hd HN].
  assert (HNpos : 0 < INR N) by (apply lt_0_INR; lia).
  assert (Hdpos : 0 < INR d) by (apply lt_0_INR; lia).
  assert (HdN : INR d < INR N) by (by apply lt_INR).
  destruct (whole_turns d) as [Hc Hs].
  apply unit_vectors_cancel.
  - replace (INR N * (2 * PI * INR d / INR N)) with (2 * PI * INR d)
      by (field; lra). done.
  - replace (INR N * (2 * PI * INR d / INR N)) with (2 * PI * INR d)
      by (field; lra). done.
  - apply cos_below_one. pose proof PI_RGT_0. split.
    + apply Rdiv_lt_0_compat; [|done]. apply Rmult_lt_0_compat; lra.
    + apply (Rmult_lt_reg_r (INR N)); [done|].
      replace (2 * PI * INR d / INR N * INR N) with (2 * PI * INR d)
        by (field; lra). nra.
Qed.

(** Orthogonality of the sampled exponentials. *)
Lemma orthogonality (N m n : nat) :
  (m < N)%nat -> (n < N)%nat ->
  Rsum N (fun k => cos (INR k * (2 * PI * (INR m - INR n) / INR N))) =
    (if decide (m = n) then INR N else 0) /\
  Rsum N (fun k => sin (INR k * (2 * PI * (INR m - INR n) / INR N))) = 0.
Proof.
  intros Hm Hn.
  assert (HNpos : 0 < INR N) by (apply lt_0_INR; lia).
  destruct (lt_eq_lt_dec m n) as [[Hlt|Heq]|Hgt]; [|subst m|].
  - rewrite decide_False by lia.
    destruct (roots_cancel N (n - m)) as [Hc Hs]; [lia|].
    rewrite minus_INR in Hc, Hs by lia. split.
    + rewrite <- Hc. apply Rsum_ext. intros k _. rewrite <- cos_neg.
      f_equal. field. lra.
    + rewrite (Rsum_ext N _
        (fun k => -1 * sin (INR k * (2 * PI * (INR n - INR m) / INR N)))).
      * rewrite Rsum_scal, Hs. lra.
      * intros k _.
        transitivity (- sin (INR k * (2 * PI * (INR n - INR m) / INR N))); [|lra].
        rewrite <- sin_neg. f_equal. field. lra.
  - rewrite decide_True by done. split.
    + rewrite (Rsum_ext N _ (fun _ => 1)), Rsum_const; [lra|].
      intros k _. replace (INR k * _) with 0 by (field; lra). apply cos_0.
    + rewrite (Rsum_ext N _ (fun _ => 0)), Rsum_zero; [done|].
      intros k _. replace (INR k * _) with 0 by (field; lra). apply sin_0.
  - rewrite decide_False by lia.
    destruct (roots_cancel N (m - n)) as [Hc Hs]; [lia|].
    rewrite minus_INR in Hc, Hs by lia. done.
Qed.

(** *** Polar form *)

Lemma hypot_scaled (a t : R) : 0 < a -> hypot a (a * t) = a * sqrt (1 + t²).
Proof.
  intros Ha. unfold hypot, Rsqr.
  replace (a * a + a * t * (a * t)) with ((a * a) * (1 + t * t)) by ring.
  rewrite sqrt_mult; [|nra|nra]. rewrite sqrt_square by lra. done.
Qed.

Lemma sqrt_1_sqr_pos (t : R) : 0 < sqrt (1 + t²).
Proof. apply sqrt_lt_R0. unfold Rsqr. nra. Qed.

Lemma hypot_opp (a b : R) : hypot (- a) b = hypot a b.
Proof. unfold hypot. f_equal. ring. Qed.

(** [amp] and [phase] are the polar coordinates of [(re, im)]. *)
Lemma polar (a b : R) :
  hypot a b * cos (atan2 b a) = a /\ hypot a b * sin (atan2 b a) = b.
Proof.
  unfold atan2. destruct (Rlt_dec 0 a) as [Hpos|Hnpos].
  - pose proof (sqrt_1_sqr_pos (b / a)).
    replace (hypot a b) with (hypot a (a * (b / a)))
      by (f_equal; field; lra).
    rewrite hypot_scaled, cos_atan, sin_atan by done.
    split; field; lra.
  - destruct (Rlt_dec a 0) as [Hneg|Hnneg].
    + pose proof (sqrt_1_sqr_pos (b / a)).
      assert (Hh : hypot a b = - a * sqrt (1 + (b / a)²)).
      { rewrite <- hypot_opp.
        replace b with (- a * (- (b / a))) at 1 by (field; lra).
        rewrite hypot_scaled by lra. by rewrite <- Rsqr_neg. }
      rewrite Hh. destruct (Rle_dec 0 b).
      * rewrite neg_cos, neg_sin, cos_atan, sin_atan. split; field; lra.
      * unfold Rminus. rewrite <- (cos_neg (_ + - PI)), <- (Ropp_involutive (sin (_ + - PI))).
        rewrite <- sin_neg, Ropp_plus_distr, Ropp_involutive.
        rewrite neg_cos, neg_sin, cos_neg, sin_neg, cos_atan, sin_atan.
        split; field; lra.
    + assert (a = 0) as -> by lra. unfold hypot.
      replace (0 * 0 + b * b) with (b * b) by ring.
      destruct (Rlt_dec 0 b).
      * rewrite sqrt_square, cos_PI2, sin_PI2 by lra. lra.
      * destruct (Rlt_dec b 0).
        -- replace (b * b) with (- b * - b) by ring.
           rewrite sqrt_square, cos_neg, sin_neg, cos_PI2, sin_PI2 by lra. lra.
        -- assert (b = 0) as -> by lra.
           rewrite Rmult_0_r, sqrt_0. lra.
Qed.

End DftFacts.

Module BoundsFacts.
Import HomeAnimation.
Local Open Scope Q_scope.

Example two_point_column :
  let helloPath := [(0, 0); (0, 5)] in
  scaleX (Fin 300) helloPath = PosInf /\
  exists s, scale (Fin 300) (Fin 200) helloPath = Fin s /\ s == 36.
Proof. split; [reflexivity|]. eexists. split; reflexivity. Qed.

Lemma lower_bound_step (p lo hi : Q) :
  lo <= hi ->
  exists lo' hi',
    (if js_lt (Fin p) (Fin lo) then Fin p else Fin lo) = Fin lo' /\
    (if js_gt (Fin p) (Fin hi) then Fin p else Fin hi) = Fin hi' /\
    lo' <= hi'.
Proof.
  intros Hle. unfold js_gt, js_lt.
  destruct (Qlt_le_dec p lo) as [Hlo|Hlo], (Qlt_le_dec hi p) as [Hhi|Hhi];
    eexists _, _; (split; [reflexivity|]); (split; [reflexivity|]).
  - apply Qle_refl.
  - apply Qlt_le_weak. by apply Qlt_le_trans with lo.
  - exact Hlo.
  - exact Hle.
Qed.

Lemma boxed_step (b : bounds) (pt : Q * Q) : boxed b -> boxed (bounds_step b pt).
Proof.
  intros (x0 & x1 & y0 & y1 & -> & Hx & Hy). unfold bounds_step.
  cbn [minX maxX minY maxY].
  destruct (lower_bound_step pt.1 x0 x1 Hx) as (x0' & x1' & -> & -> & Hx').
  destruct (lower_bound_step pt.2 y0 y1 Hy) as (y0' & y1' & -> & -> & Hy').
  by exists x0', x1', y0', y1'.
Qed.

Lemma boxed_first (pt : Q * Q) :
  boxed (bounds_step
    {| minX := PosInf; maxX := NegInf; minY := PosInf; maxY := NegInf |} pt).
Proof.
  exists pt.1, pt.1, pt.2, pt.2.
  split; [reflexivity|]. split; apply Qle_refl.
Qed.

Lemma boxed_foldl (pts : list (Q * Q)) (b : bounds) :
  boxed b -> boxed (foldl bounds_step b pts).
Proof.
  revert b. induction pts as [|pt pts IH]; intros b Hb; [done|].
  cbn [foldl]. by apply IH, boxed_step.
Qed.

Lemma path_bounds_boxed (helloPath : list (Q * Q)) :
  helloPath <> [] -> boxed (path_bounds helloPath).
Proof.
  destruct helloPath as [|pt pts]; [done|]. intros _.
  unfold path_bounds. cbn [foldl]. apply boxed_foldl, boxed_first.
Qed.

(** Dividing a finite number by a nonzero finite number is finite. *)
Lemma js_div_finite (p q : Q) : ~ q == 0 -> js_div (Fin p) (Fin q) = Fin (p / q).
Proof.
  intros Hq. unfold js_div.
  destruct (Qeq_bool q 0) eqn:E; [|done].
  by apply Qeq_bool_eq in E.
Qed.

Lemma js_min_finite (p q : Q) :
  exists m, js_min (Fin p) (Fin q) = Fin m /\ m == Qmin p q.
Proof.
  unfold js_min, js_lt. destruct (Qlt_le_dec q p) as [Hlt|Hle].
  - exists q. split; [done|]. symmetry. apply Q.min_r. by apply Qlt_le_weak.
  - exists p. split; [done|]. symmetry. by apply Q.min_l.
Qed.

(** C3 (as stated) fails: a path whose points all coincide has width and
    height 0; both quotients are infinite and so is the scale. *)
Lemma single_point_scale_infinite :
  let helloPath := [(3, 4)] in
  designWidth helloPath = Fin (3 - 3) /\
  scaleX (Fin 300) helloPath = PosInf /\
  scaleY (Fin 200) helloPath = PosInf /\
  scale (Fin 300) (Fin 200) helloPath = PosInf /\
  is_finite (scale (Fin 300) (Fin 200) helloPath) = false.
Proof. vm_compute. repeat split. Qed.

End BoundsFacts.

Module HomeAnimationFacts.
Import Dft DftFacts HomeAnimation.
Local Open Scope R_scope.

(** *** The vector chain as a sum *)

Lemma Rlist_sum_app (l1 l2 : list R) :
  Rlist_sum (l1 ++ l2) = Rlist_sum l1 + Rlist_sum l2.
Proof.
  unfold Rlist_sum. induction l1 as [|a l1 IH]; cbn [foldr app]; [lra | rewrite IH; lra].
Qed.

Lemma Rlist_sum_perm (l1 l2 : list R) :
  Permutation l1 l2 -> Rlist_sum l1 = Rlist_sum l2.
Proof. unfold Rlist_sum. induction 1; cbn [foldr]; lra. Qed.

Lemma Rlist_sum_seq (f : nat -> R) (N : nat) :
  Rlist_sum (f <$> seq 0 N) = Rsum N f.
Proof.
  induction N as [|N IH]; [done|].
  rewrite seq_S, fmap_app, Rlist_sum_app, IH. cbn. lra.
Qed.

Lemma epicycle_loop (t : R) (ds : list descriptor) (a b : R) :
  foldl (epicycle_step t) (a, b) ds =
  (a + Rlist_sum (x_part t <$> ds), b + Rlist_sum (y_part t <$> ds)).
Proof.
  revert a b. induction ds as [|d ds IH]; intros a b.
  - unfold Rlist_sum. cbn [foldl fmap list_fmap foldr]. f_equal; lra.
  - cbn [foldl]. unfold epicycle_step at 2. cbn [fst snd]. rewrite IH.
    rewrite !fmap_cons. unfold Rlist_sum, x_part, y_part. cbn [foldr].
    f_equal; lra.
Qed.

Lemma epicycle_sums (t : R) (ds : list descriptor) :
  epicycle ds t = (Rlist_sum (x_part t <$> ds), Rlist_sum (y_part t <$> ds)).
Proof. unfold epicycle. rewrite epicycle_loop. f_equal; lra. Qed.

(** The order in which the vectors are chained does not move the tip. *)
Lemma epicycle_perm (t : R) (ds ds' : list descriptor) :
  Permutation ds ds' -> epicycle ds t = epicycle ds' t.
Proof.
  intros Hp. rewrite !epicycle_sums.
  f_equal; apply Rlist_sum_perm; by apply Permutation_map.
Qed.

Lemma epicycle_dft (t : R) (x : list complex) :
  let N := Datatypes.length x in
  epicycle (dft x) t =
  (Rsum N (fun k => x_part t (dft_outer x N k)),
   Rsum N (fun k => y_part t (dft_outer x N k))).
Proof.
  intros N. rewrite epicycle_sums, dft_as_map. fold N.
  rewrite <- !list_fmap_compose. by rewrite !Rlist_sum_seq.
Qed.

(** *** One vector at a sample time *)

Section one_vector.
Variables (x : list complex) (n k : nat).
Let N := Datatypes.length x.
Let t := 2 * PI * INR n / INR N.
Let theta (m : nat) := 2 * PI * (INR m - INR n) / INR N.

Lemma x_part_at_sample :
  (0 < N)%nat ->
  x_part t (dft_outer x N k) =
  Rsum N (fun m => 1 / INR N *
    (re (nth m x zero) * cos (INR k * theta m)
     + im (nth m x zero) * sin (INR k * theta m))).
Proof using Type.
  intros HN. assert (HNpos : 0 < INR N) by (by apply lt_0_INR).
  unfold x_part. destruct (polar (d_re (dft_outer x N k)) (d_im (dft_outer x N k)))
    as [Hc Hs].
  change (amp (dft_outer x N k)) with
    (hypot (d_re (dft_outer x N k)) (d_im (dft_outer x N k))).
  change (phase (dft_outer x N k)) with
    (atan2 (d_im (dft_outer x N k)) (d_re (dft_outer x N k))).
  change (freq (dft_outer x N k)) with k.
  rewrite cos_plus.
  set (r := d_re (dft_outer x N k)) in *. set (i := d_im (dft_outer x N k)) in *.
  transitivity (hypot r i * cos (atan2 i r) * cos (INR k * t)
                - hypot r i * sin (atan2 i r) * sin (INR k * t)); [ring|].
  rewrite Hc, Hs. subst r i. clear Hc Hs.
  rewrite (Rsum_ext N _ (fun m =>
    (1 / INR N * cos (INR k * t)) *
      (re (nth m x zero) * cos (2 * PI * INR k * INR m / INR N)
       + im (nth m x zero) * sin (2 * PI * INR k * INR m / INR N))
    + (- (1 / INR N) * sin (INR k * t)) *
      (- re (nth m x zero) * sin (2 * PI * INR k * INR m / INR N)
       + im (nth m x zero) * cos (2 * PI * INR k * INR m / INR N)))).
  - rewrite Rsum_plus, !Rsum_scal.
    subst N. rewrite dft_outer_re, dft_outer_im. unfold spec_re, spec_im. ring.
  - intros m _.
    replace (INR k * theta m) with
      (2 * PI * INR k * INR m / INR N - INR k * t)
      by (unfold theta, t; field; lra).
    rewrite cos_minus, sin_minus. ring.
Qed.

Lemma y_part_at_sample :
  (0 < N)%nat ->
  y_part t (dft_outer x N k) =
  Rsum N (fun m => 1 / INR N *
    (- re (nth m x zero) * sin (INR k * theta m)
     + im (nth m x zero) * cos (INR k * theta m))).
Proof using Type.
  intros HN. assert (HNpos : 0 < INR N) by (by apply lt_0_INR).
  unfold y_part. destruct (polar (d_re (dft_outer x N k)) (d_im (dft_outer x N k)))
    as [Hc Hs].
  change (amp (dft_outer x N k)) with
    (hypot (d_re (dft_outer x N k)) (d_im (dft_outer x N k))).
  change (phase (dft_outer x N k)) with
    (atan2 (d_im (dft_outer x N k)) (d_re (dft_outer x N k))).
  change (freq (dft_outer x N k)) with k.
  rewrite sin_plus.
  set (r := d_re (dft_outer x N k)) in *. set (i := d_im (dft_outer x N k)) in *.
  transitivity (hypot r i * cos (atan2 i r) * sin (INR k * t)
                + hypot r i * sin (atan2 i r) * cos (INR k * t)); [ring|].
  rewrite Hc, Hs. subst r i. clear Hc Hs.
  rewrite (Rsum_ext N _ (fun m =>
    (1 / INR N * sin (INR k * t)) *
      (re (nth m x zero) * cos (2 * PI * INR k * INR m / INR N)
       + im (nth m x zero) * sin (2 * PI * INR k * INR m / INR N))
    + (1 / INR N * cos (INR k * t)) *
      (- re (nth m x zero) * sin (2 * PI * INR k * INR m / INR N)
       + im (nth m x zero) * cos (2 * PI * INR k * INR m / INR N)))).
  - rewrite Rsum_plus, !Rsum_scal.
    subst N. rewrite dft_outer_re, dft_outer_im. unfold spec_re, spec_im. ring.
  - intros m _.
    replace (INR k * theta m) with
      (2 * PI * INR k * INR m / INR N - INR k * t)
      by (unfold theta, t; field; lra).
    rewrite cos_minus, sin_minus. ring.
Qed.

End one_vector.

(** Summing one sample's share over all frequencies leaves the sample
    itself when [m = n] and nothing otherwise. *)
Lemma share_over_frequencies (N m n : nat) (a b : R) :
  (m < N)%nat -> (n < N)%nat ->
  Rsum N (fun k => 1 / INR N *
    (a * cos (INR k * (2 * PI * (INR m - INR n) / INR N))
     + b * sin (INR k * (2 * PI * (INR m - INR n) / INR N)))) =
  (if decide (m = n) then a else 0) /\
  Rsum N (fun k => 1 / INR N *
    (- a * sin (INR k * (2 * PI * (INR m - INR n) / INR N))
     + b * cos (INR k * (2 * PI * (INR m - INR n) / INR N)))) =
  (if decide (m = n) then b else 0).
Proof.
  intros Hm Hn. assert (HNpos : 0 < INR N) by (apply lt_0_INR; lia).
  destruct (orthogonality N m n Hm Hn) as [Hc Hs].
  set (theta := 2 * PI * (INR m - INR n) / INR N) in *.
  split.
  - rewrite Rsum_scal.
    rewrite (Rsum_plus N (fun k => a * cos (INR k * theta))
                         (fun k => b * sin (INR k * theta))).
    rewrite !Rsum_scal, Hc, Hs. case_decide; field; lra.
  - rewrite Rsum_scal.
    rewrite (Rsum_plus N (fun k => - a * sin (INR k * theta))
                         (fun k => b * cos (INR k * theta))).
    rewrite !Rsum_scal, Hc, Hs. case_decide; field; lra.
Qed.

(** The [x] shares of all descriptors at the [n]-th sample time add up
    to the real part of the [n]-th sample, the [y] shares to its
    imaginary part. *)
Lemma shares_at_sample (x : list complex) (n : nat) :
  (n < Datatypes.length x)%nat ->
  let N := Datatypes.length x in
  let t := 2 * PI * INR n / INR N in
  Rsum N (fun k => x_part t (dft_outer x N k)) = re (nth n x zero) /\
  Rsum N (fun k => y_part t (dft_outer x N k)) = im (nth n x zero).
Proof.
  intros Hn N t. subst t.
  assert (HN : (0 < N)%nat) by (subst N; lia).
  split.
  - rewrite (Rsum_ext N _ (fun k => Rsum N (fun m => 1 / INR N *
      (re (nth m x zero) * cos (INR k * (2 * PI * (INR m - INR n) / INR N))
       + im (nth m x zero) * sin (INR k * (2 * PI * (INR m - INR n) / INR N))))))
      by (intros k _; by apply x_part_at_sample).
    rewrite Rsum_swap.
    rewrite (Rsum_ext N _ (fun m => if decide (m = n) then re (nth m x zero) else 0)).
    + by apply Rsum_single.
    + intros m Hm. by apply share_over_frequencies.
  - rewrite (Rsum_ext N _ (fun k => Rsum N (fun m => 1 / INR N *
      (- re (nth m x zero) * sin (INR k * (2 * PI * (INR m - INR n) / INR N))
       + im (nth m x zero) * cos (INR k * (2 * PI * (INR m - INR n) / INR N))))))
      by (intros k _; by apply y_part_at_sample).
    rewrite Rsum_swap.
    rewrite (Rsum_ext N _ (fun m => if decide (m = n) then im (nth m x zero) else 0)).
    + by apply Rsum_single.
    + intros m Hm. by apply share_over_frequencies.
Qed.

(** C2.  Chaining all [N] descriptors of the transform at the sample
    time [t = 2 pi n / N] ends exactly at the [n]-th input point (the
    inverse transform; the forward one already carries the factor [1/N]). *)
Theorem dft_round_trip (x : list complex) (n : nat) :
  (n < Datatypes.length x)%nat ->
  epicycle (dft x) (2 * PI * INR n / INR (Datatypes.length x)) =
  (re (nth n x zero), im (nth n x zero)).
Proof.
  intros Hn. rewrite epicycle_dft. cbv zeta.
  destruct (shares_at_sample x n Hn) as [Hx Hy]. cbv zeta in Hx, Hy.
  by rewrite Hx, Hy.
Qed.

Lemma dft_round_trip_witness :
  let x := [mkComplex 0 0; mkComplex 10 0; mkComplex 10 10; mkComplex 0 10] in
  (2 < Datatypes.length x)%nat /\
  epicycle (dft x) (2 * PI * INR 2 / INR (Datatypes.length x)) = (10, 10).
Proof.
  intros x. assert (Hn : (2 < Datatypes.length x)%nat) by (cbn; lia).
  split; [exact Hn|]. exact (dft_round_trip x 2 Hn).
Defined.

(** *** The sorted descriptors *)

Lemma insert_by_amp_perm (d : descriptor) (ds : list descriptor) :
  Permutation (insert_by_amp d ds) (d :: ds).
Proof.
  induction ds as [|e ds IH]; cbn; [done|].
  destruct (Rle_dec (amp e) (amp d)); [done|].
  rewrite IH. apply perm_swap.
Qed.

Lemma sort_by_amp_perm (ds : list descriptor) : Permutation (sort_by_amp ds) ds.
Proof.
  induction ds as [|d ds IH]; cbn; [done|].
  rewrite insert_by_amp_perm. by constructor.
Qed.

Lemma fourier_length (helloPath : list (Q * Q)) :
  Datatypes.length (fourier helloPath) = Datatypes.length helloPath.
Proof.
  unfold fourier. rewrite (Permutation_length (sort_by_amp_perm _)).
  rewrite dft_length. unfold complexPoints. by rewrite length_fmap.
Qed.

(** The chain [draw] walks, largest circle first, ends at the same
    points. *)
Lemma fourier_round_trip (helloPath : list (Q * Q)) (n : nat) (pt : Q * Q) :
  helloPath !! n = Some pt ->
  epicycle (fourier helloPath)
           (2 * PI * INR n / INR (Datatypes.length (fourier helloPath))) =
  (Q2R pt.1, Q2R pt.2).
Proof.
  intros Hpt. rewrite fourier_length. unfold fourier.
  rewrite (epicycle_perm _ _ _ (sort_by_amp_perm _)).
  assert (Hlen : Datatypes.length (complexPoints helloPath) = Datatypes.length helloPath)
    by (unfold complexPoints; by rewrite length_fmap).
  assert (Hn : (n < Datatypes.length (complexPoints helloPath))%nat)
    by (rewrite Hlen; by eapply lookup_lt_Some).
  rewrite <- Hlen, epicycle_dft. cbv zeta.
  destruct (shares_at_sample _ n Hn) as [-> ->].
  assert (Hnth : complexPoints helloPath !! n = Some {| re := Q2R pt.1; im := Q2R pt.2 |})
    by (unfold complexPoints; by rewrite list_lookup_fmap, Hpt).
  by rewrite (nth_lookup_Some _ _ zero _ Hnth).
Qed.

(** *** The remainder *)

Lemma Int_part_one : Int_part 1 = 1%Z.
Proof.
  destruct (base_Int_part 1) as [Hle Hgt].
  apply le_IZR in Hle.
  assert (Hpos : 0 < IZR (Int_part 1)) by lra.
  apply lt_IZR in Hpos. lia.
Qed.

Lemma js_rem_range (a b : R) : 0 <= a -> 0 < b -> 0 <= js_rem a b < b.
Proof.
  intros Ha Hb. unfold js_rem, trunc.
  assert (Hq : 0 <= a / b).
  { apply Rmult_le_pos; [done|]. left. by apply Rinv_0_lt_compat. }
  destruct (Rle_dec 0 (a / b)); [|done].
  destruct (base_Int_part (a / b)) as [Hle Hgt].
  set (z := IZR (Int_part (a / b))) in *.
  assert (Hab : a = b * (a / b)) by (field; lra).
  split.
  - assert (b * z <= b * (a / b)) by (apply Rmult_le_compat_l; lra). lra.
  - assert (b * (a / b - 1) < b * z) by (apply Rmult_lt_compat_l; lra). lra.
Qed.

Lemma js_rem_self (b : R) : 0 < b -> js_rem b b = 0.
Proof.
  intros Hb. unfold js_rem, trunc.
  replace (b / b) with 1 by (field; lra).
  destruct (Rle_dec 0 1); [|lra]. rewrite Int_part_one. lra.
Qed.

(** *** The clock and the trail *)

Lemma dt_pos (ds : list descriptor) :
  (1 <= Datatypes.length ds)%nat -> 0 < dt ds.
Proof.
  intros HN. unfold dt. pose proof PI_RGT_0.
  apply Rdiv_lt_0_compat; [lra|]. apply lt_0_INR. lia.
Qed.

Lemma full_turn (ds : list descriptor) :
  (1 <= Datatypes.length ds)%nat ->
  INR (Datatypes.length ds) * dt ds = 2 * PI.
Proof.
  intros HN. unfold dt. field. apply not_0_INR. lia.
Qed.


Lemma stamped_time ct s : time (stamped ct s) = time s.
Proof. unfold stamped. by destruct (Req_dec_T _ _). Qed.

Lemma stamped_path ct s : path (stamped ct s) = path s.
Proof. unfold stamped. by destruct (Req_dec_T _ _). Qed.

Lemma stamped_lastFrameTime ct s :
  lastFrameTime (stamped ct s) =
  if Req_dec_T (lastFrameTime s) 0 then ct else lastFrameTime s.
Proof. unfold stamped. by destruct (Req_dec_T _ _). Qed.

Lemma draw_state (ds : list descriptor) (ct : R) (w : state * scheduler) :
  let s := stamped ct w.1 in
  let s' := if Rgt_dec (ct - lastFrameTime s) (1000 / 60 / animationSpeed)
            then frame ds ct s else s in
  time (draw ds ct w).1 = time s' /\ path (draw ds ct w).1 = path s' /\
  lastFrameTime (draw ds ct w).1 = lastFrameTime s' /\
  animationFrameId (draw ds ct w).1 = Some (next_handle w.2) /\
  pending (draw ds ct w).2 = {[next_handle w.2]} ∪ pending w.2 /\
  next_handle (draw ds ct w).2 = S (next_handle w.2).
Proof. destruct w as [s h]. unfold draw. cbn. done. Qed.

(** What a frame whose throttle is open does to the clock and the trail. *)
Lemma draw_open (ds : list descriptor) (ct : R) (w : state * scheduler) :
  throttle_open ct w.1 ->
  let tip := {| x := (epicycle ds (time w.1)).1; y := (epicycle ds (time w.1)).2 |} in
  let grown := (RingSequence.prepend tip (path w.1)).2 in
  (time w.1 + dt ds < 2 * PI ->
   time (draw ds ct w).1 = time w.1 + dt ds /\ path (draw ds ct w).1 = grown) /\
  (time w.1 + dt ds >= 2 * PI ->
   time (draw ds ct w).1 = js_rem (time w.1 + dt ds) (2 * PI) /\
   path (draw ds ct w).1 = RingSequence.clear grown).
Proof.
  intros Hopen tip grown.
  destruct (draw_state ds ct w) as (Ht & Hp & _). rewrite Ht, Hp.
  unfold throttle_open in Hopen. rewrite <- stamped_lastFrameTime in Hopen.
  destruct (Rgt_dec _ _) as [_|Hn]; [|contradiction].
  unfold frame. rewrite stamped_time, stamped_path. fold tip grown.
  split; intros Hcmp; destruct (Rge_dec _ _); try lra; done.
Qed.

Lemma draw_shut (ds : list descriptor) (ct : R) (w : state * scheduler) :
  ~ throttle_open ct w.1 ->
  time (draw ds ct w).1 = time w.1 /\ path (draw ds ct w).1 = path w.1.
Proof.
  intros Hshut.
  destruct (draw_state ds ct w) as (Ht & Hp & _). rewrite Ht, Hp.
  unfold throttle_open in Hshut. rewrite <- stamped_lastFrameTime in Hshut.
  destruct (Rgt_dec _ _) as [Hy|_]; [contradiction|].
  by rewrite stamped_time, stamped_path.
Qed.

(** *** Invariants of a run *)

Lemma throttle_dec (ct : R) (s : state) :
  {throttle_open ct s} + {~ throttle_open ct s}.
Proof. unfold throttle_open. apply Rgt_dec. Qed.

Lemma clock_ok_resize (ds : list descriptor) (w : state * scheduler) :
  (1 <= Datatypes.length ds)%nat -> clock_ok ds (resizeCanvas w).1.
Proof.
  intros HN. destruct w as [s h]. unfold resizeCanvas, clock_ok. cbn.
  split; [lia | lra].
Qed.

Lemma clock_ok_draw (ds : list descriptor) (ct : R) (w : state * scheduler) :
  (1 <= Datatypes.length ds)%nat -> clock_ok ds w.1 -> clock_ok ds (draw ds ct w).1.
Proof.
  intros HN [[H0 Hlt] Ht]. pose proof (dt_pos ds HN) as Hdt.
  pose proof (full_turn ds HN) as Hturn. pose proof PI_RGT_0 as Hpi.
  set (len := RingSequence.length (path w.1)) in *.
  assert (Hnext : time w.1 + dt ds = IZR (len + 1) * dt ds)
    by (rewrite plus_IZR, Ht; lra).
  destruct (throttle_dec ct w.1) as [Hopen|Hshut].
  - destruct (draw_open ds ct w Hopen) as [Hlo Hhi].
    destruct (Rlt_dec (time w.1 + dt ds) (2 * PI)) as [Hcmp|Hcmp].
    + destruct (Hlo Hcmp) as [Ht' Hp']. unfold clock_ok.
      rewrite Ht', Hp', RingSequenceFacts.length_prepend. fold len.
      split; [|done]. split; [lia|].
      apply lt_IZR. rewrite <- INR_IZR_INZ.
      apply (Rmult_lt_reg_r (dt ds)); [done|]. lra.
    + destruct (Hhi ltac:(lra)) as [Ht' Hp']. unfold clock_ok.
      rewrite Ht', Hp', RingSequenceFacts.length_clear.
      assert (Hfull : time w.1 + dt ds = 2 * PI).
      { assert (Hle : IZR (len + 1) <= INR (Datatypes.length ds))
          by (rewrite INR_IZR_INZ; apply IZR_le; lia).
        assert (IZR (len + 1) * dt ds <= INR (Datatypes.length ds) * dt ds)
          by (apply Rmult_le_compat_r; lra).
        lra. }
      rewrite Hfull, js_rem_self by lra. split; [lia | lra].
  - destruct (draw_shut ds ct w Hshut) as [Ht' Hp']. unfold clock_ok.
    by rewrite Ht', Hp'.
Qed.

Lemma clock_ok_react (ds : list descriptor) (w : state * scheduler) (e : event) :
  (1 <= Datatypes.length ds)%nat -> clock_ok ds w.1 -> clock_ok ds (react ds w e).1.
Proof.
  intros HN Hok. destruct e as [|handle ct]; cbn [react].
  - by apply clock_ok_resize.
  - case_decide; [|done]. by apply clock_ok_draw.
Qed.

Lemma clock_ok_play (ds : list descriptor) (es : list event) :
  (1 <= Datatypes.length ds)%nat -> clock_ok ds (play ds es).1.
Proof.
  intros HN. unfold play.
  generalize (clock_ok_resize ds (boot ds) HN).
  generalize (resizeCanvas (boot ds)) as w. 
  induction es as [|e es IH]; intros w Hw; [done|].
  cbn [foldl]. by apply IH, clock_ok_react.
Qed.


(** C10.  With [N >= 1] descriptors, in exact arithmetic, the trail
    never holds more than [N] points at the end of a step: the time is
    always [length * dt], a frame that passes the throttle takes the
    length from [len] to [len + 1], or to 0 when [len + 1 = N] (the [N]-th
    frame since the last reset, where the time reaches [2 pi] and wraps),
    a frame held back leaves it, and a resize resets it to 0. *)
Theorem trail_bounded (ds : list descriptor) (es : list event) (ct : R) :
  (1 <= Datatypes.length ds)%nat ->
  let N := Z.of_nat (Datatypes.length ds) in
  let w := play ds es in
  let len := RingSequence.length (path w.1) in
  (0 <= len <= N)%Z /\ (len < N)%Z /\
  time w.1 = IZR len * dt ds /\
  (throttle_open ct w.1 ->
   RingSequence.length (path (draw ds ct w).1) =
     if decide (len + 1 = N)%Z then 0%Z else (len + 1)%Z) /\
  (~ throttle_open ct w.1 ->
   RingSequence.length (path (draw ds ct w).1) = len) /\
  RingSequence.length (path (resizeCanvas w).1) = 0%Z.
Proof.
  intros HN N w len.
  pose proof (clock_ok_play ds es HN) as Hok. fold w in Hok.
  destruct Hok as [[H0 Hlt] Ht]. fold len N in H0, Hlt, Ht.
  split; [lia|]. split; [done|]. split; [done|].
  pose proof (dt_pos ds HN) as Hdt. pose proof (full_turn ds HN) as Hturn.
  assert (Hnext : time w.1 + dt ds = IZR (len + 1) * dt ds)
    by (rewrite plus_IZR, Ht; lra).
  split; [|split].
  - intros Hopen. destruct (draw_open ds ct w Hopen) as [Hlo Hhi].
    case_decide as Hfull.
    + destruct Hhi as [_ ->]; [|done].
      rewrite Hnext, Hfull. unfold N. rewrite <- INR_IZR_INZ. lra.
    + destruct Hlo as [_ ->]; [|apply RingSequenceFacts.length_prepend].
      rewrite Hnext, <- Hturn, INR_IZR_INZ. fold N.
      apply Rmult_lt_compat_r; [done|]. apply IZR_lt. lia.
  - intros Hshut. destruct (draw_shut ds ct w Hshut) as [_ ->]. done.
  - destruct w as [s h]. reflexivity.
Qed.

(** *** Frame requests *)

Lemma requeue (id next : nat) :
  {[next]} ∪ ({[id]} ∖ {[id]}) = ({[next]} : gset nat).
Proof. by rewrite difference_diag_L, (right_id_L ∅ (∪)). Qed.

Lemma one_request_boot (ds : list descriptor) : one_request (resizeCanvas (boot ds)).
Proof.
  exists 1%nat. unfold resizeCanvas, boot.
  cbn [fst snd animationFrameId requestAnimationFrame pending next_handle].
  split; [done|]. split; [done|]. split; [|lia].
  by rewrite (right_id_L ∅ (∪)).
Qed.

Lemma one_request_resize (w : state * scheduler) :
  one_request w -> one_request (resizeCanvas w).
Proof.
  destruct w as [s h]. intros (id & Hid & Hnz & Hpend & Hlt).
  cbn [fst snd] in Hid, Hpend, Hlt.
  exists (next_handle h). unfold resizeCanvas. rewrite Hid.
  rewrite decide_False by done.
  unfold cancelAnimationFrame.
  cbn [fst snd animationFrameId requestAnimationFrame remove_request
       pending next_handle].
  split; [done|]. split; [lia|]. split; [|lia].
  rewrite Hpend. apply requeue.
Qed.

Lemma one_request_tick (ds : list descriptor) (handle : nat) (ct : R)
    (w : state * scheduler) :
  one_request w -> one_request (react ds w (Tick handle ct)).
Proof.
  intros Hw. cbn [react]. case_decide as Hin; [|done].
  destruct Hw as (id & Hid & Hnz & Hpend & Hlt).
  destruct (draw_state ds ct (w.1, remove_request handle w.2))
    as (_ & _ & _ & Hid' & Hpend' & Hnext').
  cbn [fst snd remove_request next_handle pending] in Hid', Hpend', Hnext'.
  exists (next_handle w.2). rewrite Hid', Hpend', Hnext', Hpend.
  rewrite Hpend in Hin. apply elem_of_singleton in Hin as ->.
  split; [done|]. split; [lia|]. split; [|lia]. apply requeue.
Qed.

Lemma one_request_play (ds : list descriptor) (es : list event) :
  one_request (play ds es).
Proof.
  unfold play. generalize (one_request_boot ds).
  generalize (resizeCanvas (boot ds)) as w.
  induction es as [|e es IH]; intros w Hw; [done|].
  cbn [foldl]. apply IH. destruct e as [|handle ct].
  - by apply one_request_resize.
  - by apply one_request_tick.
Qed.

(** *** A first frame, worked out *)

(** The first tick after the set-up only takes the time stamp. *)
Lemma first_tick (ds : list descriptor) (ct : R) :
  ct <> 0 ->
  let w := play ds [Tick 1 ct] in
  time w.1 = 0 /\ lastFrameTime w.1 = ct /\
  RingSequence.length (path w.1) = 0%Z.
Proof.
  intros Hct w. subst w. unfold play. cbn [foldl react].
  rewrite decide_True by (apply elem_of_union_l; by apply elem_of_singleton).
  set (w0 := ((resizeCanvas (boot ds)).1,
              remove_request 1 (resizeCanvas (boot ds)).2)).
  destruct (draw_state ds ct w0) as (Ht & Hp & Hl & _).
  rewrite Ht, Hp, Hl. clear Ht Hp Hl.
  rewrite stamped_lastFrameTime.
  change (lastFrameTime w0.1) with 0.
  destruct (Req_dec_T 0 0) as [_|Hne]; [|by destruct Hne].
  replace (ct - ct) with 0 by lra. unfold animationSpeed.
  destruct (Rgt_dec 0 (1000 / 60 / 1)) as [Hgt|_]; [lra|].
  rewrite stamped_time, stamped_path, stamped_lastFrameTime.
  change (lastFrameTime w0.1) with 0.
  destruct (Req_dec_T 0 0) as [_|Hne]; [|by destruct Hne].
  repeat split.
Qed.

Lemma first_tick_opens (ds : list descriptor) :
  throttle_open 200 (play ds [Tick 1 100]).1.
Proof.
  destruct (first_tick ds 100) as (_ & Hl & _); [lra|].
  unfold throttle_open. rewrite Hl. unfold animationSpeed.
  destruct (Req_dec_T 100 0); lra.
Qed.


Lemma trail_bounded_witness :
  let w := play one_circle [Tick 1 100] in
  (1 <= Datatypes.length one_circle)%nat /\
  throttle_open 200 w.1 /\
  (0 <= RingSequence.length (path w.1) <= 1)%Z /\
  RingSequence.length (path (draw one_circle 200 w).1) = 0%Z.
Proof.
  intros w.
  assert (HN : (1 <= Datatypes.length one_circle)%nat) by (cbn; lia).
  assert (Hopen : throttle_open 200 w.1) by apply first_tick_opens.
  destruct (trail_bounded one_circle [Tick 1 100] 200 HN)
    as (Hrange & _ & _ & Hstep & _).
  split; [exact HN|]. split; [exact Hopen|]. split; [exact Hrange|].
  subst w. rewrite (Hstep Hopen).
  destruct (first_tick one_circle 100) as (_ & _ & Hlen); [lra|].
  rewrite Hlen. reflexivity.
Defined.

End HomeAnimationFacts.

(** ** Cancelled requests *)

Module RaceFacts.
Import Dft HomeAnimation HomeAnimationFacts Race.
Local Open Scope R_scope.

Lemma resize_handle (w : state * scheduler) :
  animationFrameId (resizeCanvas w).1 = Some (next_handle w.2) /\
  next_handle (resizeCanvas w).2 = S (next_handle w.2) /\
  pending (resizeCanvas w).2 =
    {[next_handle w.2]} ∪
    match animationFrameId w.1 with
    | Some id => if decide (id = 0%nat) then pending w.2
                 else pending w.2 ∖ {[id]}
    | None => pending w.2
    end.
Proof.
  destruct w as [s h]. unfold resizeCanvas. cbn [fst snd].
  destruct (animationFrameId s) as [id|]; [case_decide|]; done.
Qed.

Lemma orderly_start (ds : list descriptor) :
  orderly {| page := resizeCanvas (boot ds); cancelled := ∅ |}.
Proof.
  destruct (one_request_boot ds) as (id & Hid & Hnz & Hpend & Hlt).
  exists id. cbn [page cancelled]. do 4 (split; [done|]).
  intros h Hh. by apply not_elem_of_empty in Hh.
Qed.

Lemma orderly_honest (ds : list descriptor) (r : racing) (e : event) :
  orderly r -> orderly (race ds r (Honest e)).
Proof.
  intros (id & Hid & Hnz & Hpend & Hlt & Hold).
  destruct e as [|handle ct]; unfold orderly; cbn [race page cancelled].
  - destruct (resize_handle (page r)) as (Hid' & Hnext' & Hpend').
    rewrite Hid, decide_False, Hpend, requeue in Hpend' by done.
    exists (next_handle (page r).2). rewrite Hid', Hnext', Hpend'.
    split; [done|]. split; [lia|]. split; [done|]. split; [lia|].
    intros h Hh. apply elem_of_union in Hh as [Hh|Hh].
    + specialize (Hold h Hh). lia.
    + unfold cancelled_by_resize in Hh. rewrite Hid in Hh.
      rewrite decide_False in Hh by done. case_decide.
      * apply elem_of_singleton in Hh. lia.
      * by apply not_elem_of_empty in Hh.
  - destruct (decide (handle ∈ pending (page r).2)) as [Hin|Hout].
    + destruct (one_request_tick ds handle ct (page r))
        as (id' & Hid' & Hnz' & Hpend' & Hlt');
        [by exists id|].
      exists id'. do 4 (split; [done|]).
      assert (Hnew : id' = next_handle (page r).2).
      { cbn [react] in Hid'. rewrite decide_True in Hid' by done.
        destruct (draw_state ds ct ((page r).1, remove_request handle (page r).2))
          as (_ & _ & _ & Hd & _).
        rewrite Hd in Hid'. cbn in Hid'. congruence. }
      intros h Hh. specialize (Hold h Hh). lia.
    + cbn [react]. rewrite decide_False by done.
      exists id. do 4 (split; [done|]). done.
Qed.

Lemma honest_run (ds : list descriptor) (es : list event) (r : racing) :
  orderly r ->
  orderly (foldl (race ds) r (Honest <$> es)) /\
  page (foldl (race ds) r (Honest <$> es)) = foldl (react ds) (page r) es.
Proof.
  revert r. induction es as [|e es IH]; intros r Hr; [done|].
  cbn [fmap list_fmap foldl].
  destruct (IH (race ds r (Honest e))) as [Ho Hp]; [by apply orderly_honest|].
  split; [done|]. rewrite Hp. f_equal. by destruct e.
Qed.

(** C9 (as stated) fails.  After one resize, request 1 is cancelled.
    Were its callback to run all the same, at time 100, it would be
    [draw(100)], which sets the last frame time, 0 since the resize, to
    100 (and requests another frame): it has no way to tell. *)
Lemma late_tick_mutates :
  let r := race_play one_circle [Honest Resize] in
  1%nat ∈ cancelled r /\ (1%nat ∉ pending (page r).2) /\
  lastFrameTime (page r).1 = 0 /\
  lastFrameTime (page (race one_circle r (Late 1 100))).1 = 100 /\
  ~ late_ticks_discarded one_circle.
Proof.
  intros r.
  assert (Hc : cancelled r = ∅ ∪ {[1%nat]}) by reflexivity.
  assert (Hin : 1%nat ∈ cancelled r)
    by (rewrite Hc; apply elem_of_union_r; by apply elem_of_singleton).
  assert (Hp : pending (page r).2 = {[2%nat]}).
  { destruct (resize_handle (resizeCanvas (boot one_circle))) as (_ & _ & Hp).
    etransitivity; [exact Hp|].
    change ({[2%nat]} ∪ ({[1%nat]} ∪ ∅) ∖ {[1%nat]} = ({[2%nat]} : gset nat)).
    by rewrite (right_id_L ∅ (∪)), requeue. }
  assert (Hbefore : lastFrameTime (page r).1 = 0) by reflexivity.
  assert (Hafter : lastFrameTime (page (race one_circle r (Late 1 100))).1 = 100).
  { cbn [race]. rewrite decide_True by done. cbn [page].
    destruct (draw_state one_circle 100 (page r)) as (_ & _ & Hl & _).
    rewrite Hl. clear Hl.
    rewrite stamped_lastFrameTime, Hbefore.
    destruct (Req_dec_T 0 0) as [_|Hne]; [|by destruct Hne].
    replace (100 - 100) with 0 by lra. unfold animationSpeed.
    destruct (Rgt_dec 0 (1000 / 60 / 1)) as [Hgt|_]; [lra|].
    rewrite stamped_lastFrameTime, Hbefore.
    by destruct (Req_dec_T 0 0) as [_|Hne]; [|destruct Hne]. }
  split; [exact Hin|]. split.
  { rewrite Hp. intros H2. by apply elem_of_singleton in H2. }
  split; [exact Hbefore|]. split; [exact Hafter|].
  intros Hclaim.
  destruct (Hclaim [Honest Resize] 1%nat 100 Hin) as (_ & _ & Hlast).
  fold r in Hlast. rewrite Hafter, Hbefore in Hlast. lra.
Qed.

(** C9 (as the code has it).  [draw] does not detect a late call: the
    callback of a cancelled request, if it ran, would be [draw] like any
    other tick.  Late calls are kept out before they happen instead.  In
    every run in which the host honours cancellation, exactly one
    request is pending at any point, the one recorded in
    [animationFrameId]; a resize cancels it (before it resets the state)
    and files a new one; and every request that was cancelled is off the
    list, so a tick on its behalf is not run and changes nothing. *)
Theorem cancelled_requests_never_run (ds : list descriptor) (es : list event) :
  let r := race_play ds (Honest <$> es) in
  page r = play ds es /\
  exists id : nat,
    animationFrameId (page r).1 = Some id /\ id <> 0%nat /\
    pending (page r).2 = {[id]} /\
    (id ∉ pending (resizeCanvas (page r)).2) /\
    id ∈ cancelled (race ds r (Honest Resize)) /\
    (forall h ct, h <> id -> race ds r (Honest (Tick h ct)) = r) /\
    (forall h ct, h ∈ cancelled r ->
       (h ∉ pending (page r).2) /\ race ds r (Honest (Tick h ct)) = r) /\
    (forall h ct, h ∈ cancelled r ->
       page (race ds r (Late h ct)) = draw ds ct (page r)).
Proof.
  intros r.
  destruct (honest_run ds es _ (orderly_start ds)) as [Ho Hp].
  fold (race_play ds (Honest <$> es)) in Ho, Hp. fold r in Ho, Hp.
  split; [exact Hp|].
  destruct Ho as (id & Hid & Hnz & Hpend & Hlt & Hold).
  assert (Hdrop : forall h ct, h <> id -> race ds r (Honest (Tick h ct)) = r).
  { intros h ct Hne. cbn [race react]. rewrite decide_False.
    - by destruct r.
    - rewrite Hpend. intros Hin. by apply elem_of_singleton in Hin. }
  exists id. do 3 (split; [done|]). split; [|split; [|split; [|split]]].
  - destruct (resize_handle (page r)) as (_ & _ & Hpend').
    rewrite Hid, decide_False, Hpend, requeue in Hpend' by done.
    rewrite Hpend'. intros Hin. apply elem_of_singleton in Hin. lia.
  - cbn [race cancelled]. apply elem_of_union_r.
    unfold cancelled_by_resize. rewrite Hid, decide_False by done.
    rewrite decide_True by (rewrite Hpend; by apply elem_of_singleton).
    by apply elem_of_singleton.
  - exact Hdrop.
  - intros h ct Hh. specialize (Hold h Hh). split.
    + rewrite Hpend. intros Hin. apply elem_of_singleton in Hin. lia.
    + apply Hdrop. lia.
  - intros h ct Hh. cbn [race]. by rewrite decide_True.
Qed.

Lemma cancelled_requests_never_run_witness :
  let r := race_play one_circle (Honest <$> [Resize]) in
  1%nat ∈ cancelled r /\
  (1%nat ∉ pending (page r).2) /\
  race one_circle r (Honest (Tick 1 100)) = r /\
  page (race one_circle r (Late 1 100)) = draw one_circle 100 (page r).
Proof.
  intros r.
  assert (Hc : cancelled r = ∅ ∪ {[1%nat]}) by reflexivity.
  assert (Hin : 1%nat ∈ cancelled r)
    by (rewrite Hc; apply elem_of_union_r; by apply elem_of_singleton).
  destruct (cancelled_requests_never_run one_circle [Resize])
    as (_ & id & _ & _ & _ & _ & _ & _ & Hoff & Hlate).
  fold r in Hoff, Hlate.
  destruct (Hoff 1%nat 100 Hin) as [Hout Hsame].
  split; [exact Hin|]. split; [exact Hout|]. split; [exact Hsame|].
  exact (Hlate 1%nat 100 Hin).
Defined.

End RaceFacts.

(** ** Using the list *)

Module ListUseFacts.
Import RingSequence RingSequenceFacts.

Section use.
Context {A : Type}.
Implicit Types (l : List A) (o : op A) (ops : list (op A)).

Lemma run_app ops ops' l : run (ops ++ ops') l = run ops' (run ops l).
Proof. unfold run. apply foldl_app. Qed.

(** *** Walking the list *)

Lemma repr_to_list l (s : list A) : repr l s -> to_list l = Item <$> s.
Proof.
  intros Hr. pose proof Hr as (Hlen & _ & _). unfold to_list.
  apply list_eq. intros i. rewrite !list_lookup_fmap.
  destruct (decide (i < Datatypes.length s)%nat) as [Hlt|Hge].
  - rewrite lookup_seqZ_lt by lia. cbn.
    destruct (repr_get l s (Z.of_nat i) Hr) as (a & Ha & Hg); [lia|].
    rewrite Nat2Z.id in Ha. rewrite Ha, Z.add_0_l, Hg. done.
  - rewrite lookup_seqZ_ge by lia. by rewrite lookup_ge_None_2 by lia.
Qed.

Lemma drain_from l (k : nat) (fuel : nat) :
  (Z.of_nat k <= length l)%Z ->
  (Z.to_nat (length l) - k < fuel)%nat ->
  drain fuel (Z.of_nat k) l =
  Some ((fun i => get i l) <$> seqZ (Z.of_nat k) (length l - Z.of_nat k)).
Proof.
  revert k. induction fuel as [|fuel IH]; intros k Hk Hfuel; [lia|].
  cbn [drain]. unfold next.
  destruct (Z.ltb_spec (Z.of_nat k) (length l)) as [Hlt|Hge].
  - replace (Z.of_nat k + 1)%Z with (Z.of_nat (S k)) by lia.
    rewrite IH by lia. cbn.
    rewrite (seqZ_cons (Z.of_nat k) (length l - Z.of_nat k)) by lia.
    rewrite fmap_cons. do 3 f_equal. f_equal; lia.
  - replace (length l - Z.of_nat k)%Z with 0%Z by lia. done.
Qed.

(** X2.  On a list built by any calls from an empty one, calling the
    iterator's [next()] until it reports [done] yields the logical
    sequence, first element first, after [length] values; from then on
    [next()] keeps reporting [done]. *)
Theorem iterator_yields_history (c : Z) ops (fuel : nat) (index : Z) :
  (0 <= c)%Z ->
  let l := run ops (constructor c) in
  ((Datatypes.length (history ops) < fuel)%nat ->
   drain fuel 0 l = Some (Item <$> history ops)) /\
  ((length l <= index)%Z -> next index l = (None, index)).
Proof.
  intros _ l. pose proof (repr_run c ops) as Hr. fold l in Hr.
  pose proof Hr as (Hlen & _ & _). split.
  - intros Hfuel. rewrite (drain_from l 0) by lia.
    rewrite Z.sub_0_r. f_equal. by apply repr_to_list.
  - intros Hge. unfold next. by destruct (Z.ltb_spec index (length l)); [lia|].
Qed.

(** X3.  [forEach] hands the callback every element of the logical
    sequence with its index, in order, and nothing else. *)
Theorem forEach_visits_history {S : Type} (callback : jsval A -> Z -> S -> S)
    (c : Z) ops (s : S) :
  (0 <= c)%Z ->
  let l := run ops (constructor c) in
  forEach callback l s =
  foldl (fun s ia => callback (Item ia.2) ia.1 s) s
        (zip (seqZ 0 (Z.of_nat (Datatypes.length (history ops)))) (history ops)).
Proof.
  intros _ l. pose proof (repr_run c ops) as Hr. fold l in Hr.
  pose proof Hr as (Hlen & _ & _). unfold forEach. rewrite Hlen.
  assert (Hget : forall i a, history ops !! i = Some a ->
                 get (Z.of_nat i) l = Item a).
  { intros i a Ha. destruct (repr_get l _ (Z.of_nat i) Hr) as (b & Hb & Hg).
    - apply lookup_lt_Some in Ha. lia.
    - rewrite Nat2Z.id in Hb. congruence. }
  clear Hr Hlen. revert s Hget. generalize (history ops) as h.
  induction h as [|a h IH] using rev_ind; intros s Hget; [done|].
  rewrite length_app, Nat2Z.inj_add. cbn [Datatypes.length].
  rewrite seqZ_app by lia.
  replace (seqZ (0 + Z.of_nat (Datatypes.length h)) (Z.of_nat 1))
    with [Z.of_nat (Datatypes.length h)]
    by (unfold seqZ; cbn; f_equal; lia).
  rewrite zip_with_app by (by rewrite length_seqZ, Nat2Z.id).
  rewrite !foldl_app. cbn [foldl zip_with fst snd]. rewrite IH.
  - f_equal. apply Hget.
    rewrite lookup_app_r by lia. by rewrite Nat.sub_diag.
  - intros i b Hb. apply Hget. rewrite lookup_app_l; [done|].
    by apply lookup_lt_Some in Hb.
Qed.

(** *** [pop] *)

Lemma repr_last l (s : list A) :
  repr l s -> (pop l).1 = from_option Item Undefined (last s).
Proof.
  intros (Hlen & Htail & Hcells). unfold pop. case_decide as H0.
  - destruct s; [done | cbn in Hlen; lia].
  - cbn [fst]. rewrite last_lookup.
    destruct (lookup_lt_is_Some_2 s (pred (Datatypes.length s))) as [a Ha]; [lia|].
    rewrite Ha. cbn. rewrite <- (Hcells _ _ Ha). f_equal. lia.
Qed.

(** X1.  On a list built by any calls from an empty one, [pop()] returns
    the last element of the logical sequence ([undefined] when it is
    empty) and leaves the sequence without it. *)
Theorem pop_returns_last (c : Z) ops :
  (0 <= c)%Z ->
  let l := run ops (constructor c) in
  (pop l).1 = from_option Item Undefined (last (history ops)) /\
  to_list (pop l).2 = Item <$> removelast (history ops).
Proof.
  intros _ l. pose proof (repr_run c ops) as Hr. fold l in Hr. split.
  - by apply repr_last.
  - pose proof (repr_pop l _ Hr) as Hr'. by apply repr_to_list.
Qed.

(** *** [set] *)

(** X4.  In any state, [set(i, v)] with [0 <= i < length] returns [true];
    afterwards [get(i)] is [v], [get(j)] is what it was for every other
    [j], and length and capacity are unchanged. *)
Theorem set_then_get l (i j : Z) (v : A) :
  (0 <= i < length l)%Z ->
  (set i v l).1 = true /\
  get i (set i v l).2 = Item v /\
  (j <> i -> get j (set i v l).2 = get j l) /\
  length (set i v l).2 = length l /\
  _capacity (set i v l).2 = _capacity l.
Proof.
  intros Hi. unfold set.
  destruct (Z.ltb_spec i 0); [lia|]. destruct (Z.geb_spec i (length l)); [lia|].
  cbn [orb fst snd]. split; [done|]. unfold get. cbn [length _head _buffer _capacity].
  split; [|split; [|done]].
  - destruct (Z.ltb_spec i 0); [lia|]. destruct (Z.geb_spec i (length l)); [lia|].
    cbn [orb]. apply read_insert_eq.
  - intros Hne. destruct (_ || _); [done|]. apply read_insert_ne. lia.
Qed.

(** *** A first-in first-out use *)

Lemma step_prepend (a : A) l : step l (Prepend a) = (prepend a l).2.
Proof. unfold step, exec. by destruct (prepend a l). Qed.

Lemma step_pop l : step l Pop = (pop l).2.
Proof. unfold step, exec. by destruct (pop l). Qed.

Lemma prepend_fields (a : A) l :
  let l' := (prepend a l).2 in
  length l' = (length l + 1)%Z /\
  (_head l <> 0%Z ->
   _head l' = (_head l - 1)%Z /\ _tail l' = _tail l /\ _capacity l' = _capacity l) /\
  (_head l = 0%Z ->
   _head l' = ((_capacity l * 2 - length l) / 2 - 1)%Z /\
   _tail l' = ((_capacity l * 2 - length l) / 2 + length l - 1)%Z /\
   _capacity l' = (_capacity l * 2)%Z).
Proof.
  unfold prepend. case_decide as H0; cbn [snd length _head _tail _capacity _resize];
    (split; [done|]); split; intros H; done.
Qed.

Lemma pop_fields l :
  length l <> 0%Z ->
  let l' := (pop l).2 in
  length l' = (length l - 1)%Z /\ _head l' = _head l /\
  _tail l' = (_tail l - 1)%Z /\ _capacity l' = _capacity l.
Proof. intros Hne. unfold pop. rewrite decide_False by done. done. Qed.

Lemma queue_cycle (c k : Z) (a : A) l :
  length l = 0%Z -> _tail l = (_head l - 1)%Z -> (0 <= _head l)%Z ->
  (1 <= _capacity l)%Z -> _capacity l = (k + _head l + (c - c / 2))%Z ->
  let l' := run [Prepend a; Pop] l in
  length l' = 0%Z /\ _tail l' = (_head l' - 1)%Z /\ (0 <= _head l')%Z /\
  (1 <= _capacity l')%Z /\ _capacity l' = (k + 1 + _head l' + (c - c / 2))%Z.
Proof.
  intros Hlen Htail Hhead Hcap Hk. unfold run. cbn [foldl].
  rewrite step_prepend, step_pop.
  destruct (prepend_fields a l) as (Hl1 & Hkeep & Hgrow).
  destruct (pop_fields (prepend a l).2) as (Hl2 & Hh2 & Ht2 & Hc2); [lia|].
  cbv zeta. rewrite Hl2, Hh2, Ht2, Hc2, Hl1.
  destruct (decide (_head l = 0%Z)) as [H0|H0].
  - destruct (Hgrow H0) as (-> & -> & ->).
    rewrite Hlen, Z.sub_0_r, Z.div_mul by done. lia.
  - destruct (Hkeep H0) as (-> & -> & ->). lia.
Qed.

Lemma queue_cycles (c : Z) (items : list A) (k : Z) l :
  length l = 0%Z -> _tail l = (_head l - 1)%Z -> (0 <= _head l)%Z ->
  (1 <= _capacity l)%Z -> _capacity l = (k + _head l + (c - c / 2))%Z ->
  let l' := run (queue_calls items) l in
  length l' = 0%Z /\ (0 <= _head l')%Z /\
  _capacity l' = (k + Z.of_nat (Datatypes.length items) + _head l' + (c - c / 2))%Z.
Proof.
  revert k l. induction items as [|a items IH]; intros k l Hlen Htail Hhead Hcap Hk.
  - cbn. split; [done|]. split; [done|]. lia.
  - unfold queue_calls. cbn [mbind list_bind]. fold (queue_calls items).
    cbv zeta. rewrite run_app.
    destruct (queue_cycle c k a l Hlen Htail Hhead Hcap Hk)
      as (Hlen' & Htail' & Hhead' & Hcap' & Hk').
    destruct (IH (k + 1)%Z _ Hlen' Htail' Hhead' Hcap' Hk') as (Hl & Hh & Hc).
    split; [done|]. split; [done|]. rewrite Hc. cbn [Datatypes.length]. lia.
Qed.

(** X6.  Used as a queue (every item prepended, then the oldest popped)
    from an empty list of initial capacity [c >= 1], the list stays empty
    but the cells freed at the tail are never used again: after [k] items
    the capacity is [k + _head + (c - floor (c / 2))], hence at least [k]. *)
Theorem queue_capacity_grows (c : Z) (items : list A) :
  (1 <= c)%Z ->
  let l := run (queue_calls items) (constructor c) in
  let k := Z.of_nat (Datatypes.length items) in
  length l = 0%Z /\
  _capacity l = (k + _head l + (c - c / 2))%Z /\
  (k <= _capacity l)%Z.
Proof.
  intros Hc l k.
  destruct (queue_cycles c items 0 (constructor c)) as (Hl & Hh & Hcap).
  - done.
  - done.
  - unfold constructor. cbn [_head]. apply Z.div_pos; lia.
  - done.
  - unfold constructor. cbn [_head _capacity]. lia.
  - fold l in Hl, Hh, Hcap. split; [done|]. split; [subst k; lia|].
    assert (c / 2 <= c)%Z by (apply Z.div_le_upper_bound; lia). subst k. lia.
Qed.

(** *** Staying inside the allocated cells *)

Lemma capacity_doublings (c : Z) ops (l : List A) :
  initialCapacity l = c ->
  (exists k : nat, _capacity l = c * 2 ^ Z.of_nat k)%Z ->
  (exists k : nat, _capacity (run ops l) = c * 2 ^ Z.of_nat k)%Z.
Proof.
  unfold run. revert l. induction ops as [|o ops IH]; intros l Hc Hk; [done|].
  cbn [foldl]. apply IH; [by rewrite initialCapacity_step|].
  destruct Hk as [k Hk].
  destruct (capacity_step l o) as [->|[->|[_ ->]]].
  - by exists k.
  - exists (S k). rewrite Hk, Nat2Z.inj_succ, Z.pow_succ_r by lia. lia.
  - exists 0%nat. rewrite Hc. cbn. lia.
Qed.

(** X18.  From an initial capacity of 2 or more, after any calls the
    elements occupy the cells [_head .. _tail] inside the allocated
    cells [0 .. capacity - 1], so the length never exceeds the capacity;
    and the capacity is the initial one doubled some number of times. *)
Theorem window_stays_allocated (c : Z) ops :
  (2 <= c)%Z ->
  let l := run ops (constructor c) in
  (0 <= _head l)%Z /\ (_tail l <= _capacity l - 1)%Z /\
  length l = (_tail l - _head l + 1)%Z /\
  (0 <= length l <= _capacity l)%Z /\
  exists k : nat, _capacity l = (c * 2 ^ Z.of_nat k)%Z.
Proof.
  intros Hc l. destruct (roomy_run c ops Hc) as (_ & _ & Hh & Ht & Hl & H0).
  fold l in Hh, Ht, Hl, H0. split; [done|]. split; [done|]. split; [done|].
  split; [lia|]. apply capacity_doublings; [done|]. exists 0%nat. cbn. lia.
Qed.

End use.

Lemma window_stays_allocated_witness :
  let l := run [Append 7%nat; Prepend 5%nat; Append 9%nat] (constructor 2) in
  (2 <= 2)%Z /\ (0 <= _head l)%Z /\ (length l <= _capacity l)%Z.
Proof.
  intros l.
  destruct (window_stays_allocated 2 [Append 7%nat; Prepend 5%nat; Append 9%nat]
              ltac:(lia)) as (Hh & _ & _ & Hl & _).
  split; [lia|]. split; [exact Hh | exact (proj2 Hl)].
Defined.

Section transform.
Context {A B : Type}.

(** *** [map] *)

Lemma appends_as_run (g : Z -> B) (idx : list Z) (res : List B) :
  foldl (fun res i => (append (g i) res).2) res idx =
  run (Append <$> (g <$> idx)) res.
Proof.
  revert res. induction idx as [|i idx IH]; intros res; [done|].
  cbn [foldl fmap list_fmap]. rewrite IH. reflexivity.
Qed.

Lemma history_appends (xs acc : list B) :
  foldl history_step acc (Append <$> xs) = acc ++ xs.
Proof.
  revert acc. induction xs as [|b xs IH]; intros acc; cbn.
  - by rewrite app_nil_r.
  - rewrite IH. by rewrite <- app_assoc.
Qed.

Lemma fmap_indices {C : Type} (g : Z -> C) (h : list A) (g' : Z * A -> C) :
  (forall i a, h !! i = Some a -> g (Z.of_nat i) = g' (Z.of_nat i, a)) ->
  g <$> seqZ 0 (Z.of_nat (Datatypes.length h)) =
  g' <$> zip (seqZ 0 (Z.of_nat (Datatypes.length h))) h.
Proof.
  intros Hg. apply list_eq. intros i. rewrite !list_lookup_fmap.
  destruct (decide (i < Datatypes.length h)%nat) as [Hlt|Hge].
  - destruct (lookup_lt_is_Some_2 h i Hlt) as [a Ha].
    rewrite lookup_zip_with, !lookup_seqZ_lt, Ha by lia. cbn.
    rewrite Z.add_0_l. f_equal. by apply Hg.
  - rewrite lookup_seqZ_ge by lia.
    rewrite (proj2 (lookup_ge_None _ i)); [done|].
    rewrite length_zip_with, length_seqZ. lia.
Qed.

(** X5.  On a list built by any calls from an empty one, [map(callback)]
    returns a new list of the same length whose [i]-th element is
    [callback(element i, i)], in order; its capacity is at least its
    length. *)
Theorem map_applies_callback (callback : jsval A -> Z -> B)
    (c : Z) (ops : list (op A)) :
  (0 <= c)%Z ->
  let l := run ops (constructor c) in
  let h := history ops in
  to_list (map callback l) =
    (fun ia => Item (callback (Item ia.2) ia.1)) <$>
      zip (seqZ 0 (Z.of_nat (Datatypes.length h))) h /\
  length (map callback l) = Z.of_nat (Datatypes.length h) /\
  (length (map callback l) <= _capacity (map callback l))%Z.
Proof.
  intros _ l h. pose proof (repr_run c ops) as Hr. fold l h in Hr.
  pose proof Hr as (Hlen & _ & _).
  assert (Hget : forall i a, h !! i = Some a -> get (Z.of_nat i) l = Item a).
  { intros i a Ha. destruct (repr_get l _ (Z.of_nat i) Hr) as (b & Hb & Hg).
    - apply lookup_lt_Some in Ha. lia.
    - rewrite Nat2Z.id in Hb. congruence. }
  set (g := fun i => callback (get i l) i).
  assert (Hmap : map callback l =
                 run (Append <$> (g <$> seqZ 0 (length l))) (constructor (length l)))
    by (unfold map; apply appends_as_run).
  assert (Hrm : repr (map callback l) (g <$> seqZ 0 (length l))).
  { rewrite Hmap. pose proof (repr_run (length l) (Append <$> (g <$> seqZ 0 (length l)))) as H.
    unfold history in H. by rewrite history_appends in H. }
  split; [|split].
  - rewrite (repr_to_list _ _ Hrm), Hlen, <- list_fmap_compose.
    apply fmap_indices. intros i a Ha. cbn. unfold g. by rewrite (Hget i a Ha).
  - destruct Hrm as (-> & _). by rewrite length_fmap, length_seqZ, Hlen, Nat2Z.id.
  - destruct (decide (2 <= length l)%Z) as [H2|H2].
    + rewrite Hmap. by apply capacity_ge_length_from_two.
    + rewrite Hmap. assert (length l = 0 \/ length l = 1)%Z as [->| ->] by lia.
      * vm_compute. discriminate.
      * change (g <$> seqZ 0 1) with [g 0%Z]. generalize (g 0%Z). intros b.
        vm_compute. discriminate.
Qed.

End transform.

Lemma pop_returns_last_witness :
  let l := run [Append 7%nat; Prepend 5%nat] (constructor 2) in
  (0 <= 2)%Z /\ (pop l).1 = Item 7%nat.
Proof.
  intros l. split; [lia|].
  exact (proj1 (pop_returns_last 2 [Append 7%nat; Prepend 5%nat] ltac:(lia))).
Defined.

Lemma iterator_yields_history_witness :
  let l := run [Append 7%nat; Prepend 5%nat] (constructor 2) in
  (0 <= 2)%Z /\ drain 3 0 l = Some [Item 5%nat; Item 7%nat] /\
  next 2 l = (None, 2%Z).
Proof.
  intros l.
  destruct (iterator_yields_history 2 [Append 7%nat; Prepend 5%nat] 3 2 ltac:(lia))
    as [Hd Hn].
  split; [lia|]. split; [apply Hd; vm_compute; lia | apply Hn; vm_compute; discriminate].
Defined.

Lemma forEach_visits_history_witness :
  let l := run [Append 7%nat; Prepend 5%nat] (constructor 2) in
  (0 <= 2)%Z /\
  forEach (fun v i s => (i, v) :: s) l [] = [(1%Z, Item 7%nat); (0%Z, Item 5%nat)].
Proof.
  intros l. split; [lia|].
  exact (forEach_visits_history (fun v i s => (i, v) :: s) 2
           [Append 7%nat; Prepend 5%nat] [] ltac:(lia)).
Defined.

Lemma set_then_get_witness :
  let l := run [Append 7%nat; Prepend 5%nat] (constructor 2) in
  (0 <= 1 < length l)%Z /\ get 1 (set 1 9%nat l).2 = Item 9%nat /\
  get 0 (set 1 9%nat l).2 = get 0 l.
Proof.
  intros l. assert (Hi : (0 <= 1 < length l)%Z) by (vm_compute; split; [discriminate | reflexivity]).
  destruct (set_then_get l 1 0 9%nat Hi) as (_ & Hg & Ho & _).
  split; [exact Hi|]. split; [exact Hg | apply Ho; lia].
Defined.

Lemma map_applies_callback_witness :
  let l := run [Append 7%nat; Prepend 5%nat] (constructor 2) in
  (0 <= 2)%Z /\ length (map (fun v i => (i, v)) l) = 2%Z.
Proof.
  intros l. split; [lia|].
  exact (proj1 (proj2 (map_applies_callback (fun v i => (i, v)) 2
           [Append 7%nat; Prepend 5%nat] ltac:(lia)))).
Defined.

Lemma queue_capacity_grows_witness :
  let l := run (queue_calls [1%nat; 2%nat; 3%nat]) (constructor 1) in
  (1 <= 1)%Z /\ length l = 0%Z /\ (3 <= _capacity l)%Z.
Proof.
  intros l.
  destruct (queue_capacity_grows 1 [1%nat; 2%nat; 3%nat] ltac:(lia))
    as (Hl & _ & Hk).
  split; [lia|]. split; [exact Hl | exact Hk].
Defined.

End ListUseFacts.

(** ** More on the transform *)

Module SpectrumFacts.
Import Dft DftFacts.
Local Open Scope R_scope.

Lemma dft_outer_ext (x x' : list complex) (N k : nat) :
  d_re (dft_outer x N k) = d_re (dft_outer x' N k) ->
  d_im (dft_outer x N k) = d_im (dft_outer x' N k) ->
  dft_outer x N k = dft_outer x' N k.
Proof.
  intros Hre Him.
  change (dft_outer x N k) with
    {| d_re := d_re (dft_outer x N k); d_im := d_im (dft_outer x N k); freq := k;
       amp := hypot (d_re (dft_outer x N k)) (d_im (dft_outer x N k));
       phase := atan2 (d_im (dft_outer x N k)) (d_re (dft_outer x N k)) |}.
  rewrite Hre, Him. reflexivity.
Qed.

(** X7.  The descriptor of frequency 0 is the centroid of the samples. *)
Theorem dc_is_centroid (x : list complex) :
  x <> [] ->
  let N := Datatypes.length x in
  exists d, dft x !! 0%nat = Some d /\ freq d = 0%nat /\
    d_re d = Rsum N (fun n => re (nth n x zero)) / INR N /\
    d_im d = Rsum N (fun n => im (nth n x zero)) / INR N.
Proof.
  intros Hne N.
  assert (HN : (0 < N)%nat) by (subst N; destruct x; [done | cbn; lia]).
  exists (dft_outer x N 0). split; [by apply dft_lookup|]. split; [done|].
  subst N. rewrite dft_outer_re, dft_outer_im. unfold spec_re, spec_im.
  assert (H0 : forall n, 2 * PI * INR 0 * INR n / INR (Datatypes.length x) = 0)
    by (intros n; unfold Rdiv; cbn [INR]; ring).
  split.
  - rewrite (Rsum_ext _ _ (fun n => re (nth n x zero)))
      by (intros n _; rewrite H0, cos_0, sin_0; lra).
    unfold Rdiv. ring.
  - rewrite (Rsum_ext _ _ (fun n => im (nth n x zero)))
      by (intros n _; rewrite H0, cos_0, sin_0; lra).
    unfold Rdiv. ring.
Qed.

Lemma hypot_nonneg (a b : R) : 0 <= hypot a b.
Proof. apply sqrt_pos. Qed.

Lemma atan2_range (y x : R) : - PI < atan2 y x <= PI.
Proof.
  pose proof PI_RGT_0 as Hpi. unfold atan2.
  destruct (Rlt_dec 0 x) as [Hpos|_].
  - pose proof (atan_bound (y / x)). lra.
  - destruct (Rlt_dec x 0) as [Hneg|_].
    + pose proof (atan_bound (y / x)) as Hb.
      assert (Hinv : / x < 0) by (by apply Rinv_lt_0_compat).
      destruct (Rle_dec 0 y) as [Hy|Hy].
      * assert (Hq : y / x <= 0) by (unfold Rdiv; nra).
        assert (atan (y / x) <= 0).
        { destruct Hq as [Hq|Hq].
          - left. rewrite <- atan_0. by apply atan_increasing.
          - rewrite Hq, atan_0. lra. }
        lra.
      * assert (Hq : 0 < y / x) by (unfold Rdiv; nra).
        assert (0 < atan (y / x)) by (rewrite <- atan_0; by apply atan_increasing).
        lra.
    + destruct (Rlt_dec 0 y); [lra|]. destruct (Rlt_dec y 0); lra.
Qed.

(** X8.  Every descriptor the transform returns has a non-negative
    amplitude, a phase in [(-pi, pi]], and its index as frequency, which
    is below the number of samples. *)
Theorem descriptor_ranges (x : list complex) (k : nat) (d : descriptor) :
  dft x !! k = Some d ->
  0 <= amp d /\ - PI < phase d <= PI /\
  freq d = k /\ (freq d < Datatypes.length x)%nat.
Proof.
  intros Hd. pose proof (lookup_lt_Some _ _ _ Hd) as Hk.
  rewrite dft_length in Hk. rewrite dft_lookup in Hd by done.
  injection Hd as <-. cbn [amp phase freq dft_outer].
  split; [apply hypot_nonneg|]. split; [apply atan2_range|]. done.
Qed.

(** *** Moving the samples *)

Lemma translate_length (c : complex) (x : list complex) :
  Datatypes.length (translate c x) = Datatypes.length x.
Proof. unfold translate. by rewrite length_fmap. Qed.

Lemma translate_nth (c : complex) (x : list complex) (n : nat) :
  (n < Datatypes.length x)%nat ->
  re (nth n (translate c x) zero) = re (nth n x zero) + re c /\
  im (nth n (translate c x) zero) = im (nth n x zero) + im c.
Proof.
  intros Hn. destruct (lookup_lt_is_Some_2 x n Hn) as [p Hp].
  rewrite (nth_lookup_Some x n zero p Hp).
  assert (Hq : translate c x !! n = Some {| re := re p + re c; im := im p + im c |})
    by (unfold translate; by rewrite list_lookup_fmap, Hp).
  by rewrite (nth_lookup_Some _ n zero _ Hq).
Qed.

(** The sampled cosines and sines of a frequency [0 < k < N] add up to 0. *)
Lemma samples_cancel (N k : nat) :
  (0 < k < N)%nat ->
  Rsum N (fun n => cos (2 * PI * INR k * INR n / INR N)) = 0 /\
  Rsum N (fun n => sin (2 * PI * INR k * INR n / INR N)) = 0.
Proof.
  intros Hk. assert (HN : 0 < INR N) by (apply lt_0_INR; lia).
  destruct (roots_cancel N k Hk) as [Hc Hs]. split.
  - rewrite <- Hc. apply Rsum_ext. intros n _. f_equal. field. lra.
  - rewrite <- Hs. apply Rsum_ext. intros n _. f_equal. field. lra.
Qed.

Lemma translate_re (c : complex) (x : list complex) (k : nat) :
  let N := Datatypes.length x in
  spec_re (translate c x) k = spec_re x k + 1 / INR N *
    (re c * Rsum N (fun n => cos (2 * PI * INR k * INR n / INR N))
     + im c * Rsum N (fun n => sin (2 * PI * INR k * INR n / INR N))).
Proof.
  intros N. unfold spec_re. rewrite translate_length. fold N.
  rewrite (Rsum_ext N _ (fun n =>
    (re (nth n x zero) * cos (2 * PI * INR k * INR n / INR N)
     + im (nth n x zero) * sin (2 * PI * INR k * INR n / INR N))
    + (re c * cos (2 * PI * INR k * INR n / INR N)
       + im c * sin (2 * PI * INR k * INR n / INR N)))).
  - rewrite Rsum_plus, (Rsum_plus N (fun n => re c * cos _)), !Rsum_scal. ring.
  - intros n Hn. destruct (translate_nth c x n Hn) as [-> ->]. ring.
Qed.

Lemma translate_im (c : complex) (x : list complex) (k : nat) :
  let N := Datatypes.length x in
  spec_im (translate c x) k = spec_im x k + 1 / INR N *
    (- re c * Rsum N (fun n => sin (2 * PI * INR k * INR n / INR N))
     + im c * Rsum N (fun n => cos (2 * PI * INR k * INR n / INR N))).
Proof.
  intros N. unfold spec_im. rewrite translate_length. fold N.
  rewrite (Rsum_ext N _ (fun n =>
    (- re (nth n x zero) * sin (2 * PI * INR k * INR n / INR N)
     + im (nth n x zero) * cos (2 * PI * INR k * INR n / INR N))
    + (- re c * sin (2 * PI * INR k * INR n / INR N)
       + im c * cos (2 * PI * INR k * INR n / INR N)))).
  - rewrite Rsum_plus, (Rsum_plus N (fun n => - re c * sin _)), !Rsum_scal. ring.
  - intros n Hn. destruct (translate_nth c x n Hn) as [-> ->]. ring.
Qed.

(** X9.  Moving all samples by [c] moves only the descriptor of
    frequency 0 (by [c]); every descriptor of a frequency [0 < k < N] is
    the same as before, amplitude and phase included. *)
Theorem translation_moves_centre_only (c : complex) (x : list complex) (k : nat) :
  (k < Datatypes.length x)%nat ->
  (k <> 0%nat -> dft (translate c x) !! k = dft x !! k) /\
  (k = 0%nat ->
   exists d d', dft x !! k = Some d /\ dft (translate c x) !! k = Some d' /\
     d_re d' = d_re d + re c /\ d_im d' = d_im d + im c).
Proof.
  intros Hk. set (N := Datatypes.length x) in *.
  assert (HN : 0 < INR N) by (apply lt_0_INR; lia).
  assert (Hl : dft x !! k = Some (dft_outer x N k)) by (by apply dft_lookup).
  assert (Hl' : dft (translate c x) !! k = Some (dft_outer (translate c x) N k)).
  { rewrite dft_lookup by (by rewrite translate_length).
    by rewrite translate_length. }
  assert (Hre : d_re (dft_outer (translate c x) N k) = spec_re (translate c x) k)
    by (rewrite <- dft_outer_re; by rewrite translate_length).
  assert (Him : d_im (dft_outer (translate c x) N k) = spec_im (translate c x) k)
    by (rewrite <- dft_outer_im; by rewrite translate_length).
  split.
  - intros Hk0. rewrite Hl, Hl'. f_equal.
    destruct (samples_cancel N k) as [Hc Hs]; [lia|].
    apply dft_outer_ext.
    + rewrite Hre, translate_re. fold N. rewrite Hc, Hs.
      subst N. rewrite dft_outer_re. lra.
    + rewrite Him, translate_im. fold N. rewrite Hc, Hs.
      subst N. rewrite dft_outer_im. lra.
  - intros ->. exists (dft_outer x N 0), (dft_outer (translate c x) N 0).
    split; [done|]. split; [done|].
    assert (H0 : forall n, 2 * PI * INR 0 * INR n / INR N = 0)
      by (intros n; unfold Rdiv; cbn [INR]; ring).
    assert (Hc : Rsum N (fun n => cos (2 * PI * INR 0 * INR n / INR N)) = INR N).
    { rewrite (Rsum_ext N _ (fun _ => 1)) by (intros n _; by rewrite H0, cos_0).
      rewrite Rsum_const. lra. }
    assert (Hs : Rsum N (fun n => sin (2 * PI * INR 0 * INR n / INR N)) = 0).
    { rewrite (Rsum_ext N _ (fun _ => 0)) by (intros n _; by rewrite H0, sin_0).
      apply Rsum_zero. }
    split.
    + rewrite Hre, translate_re. fold N. rewrite Hc, Hs.
      subst N. rewrite dft_outer_re. field. lra.
    + rewrite Him, translate_im. fold N. rewrite Hc, Hs.
      subst N. rewrite dft_outer_im. field. lra.
Qed.

(** *** Energy *)

Lemma Rsum_mult (N M : nat) (f g : nat -> R) :
  Rsum N f * Rsum M g = Rsum N (fun m => Rsum M (fun m' => f m * g m')).
Proof.
  symmetry. rewrite (Rsum_ext N _ (fun m => Rsum M g * f m)).
  - rewrite Rsum_scal. ring.
  - intros m _. rewrite Rsum_scal. ring.
Qed.

Section energy.
Variable x : list complex.
Let N := Datatypes.length x.
Let a (m : nat) := re (nth m x zero).
Let b (m : nat) := im (nth m x zero).
Let phi (k m : nat) := 2 * PI * INR k * INR m / INR N.
Let theta (m m' : nat) := 2 * PI * (INR m - INR m') / INR N.

(** The share of the pair of samples [m], [m'] in the squared amplitude
    of frequency [k]. *)
Let pair_share (k m m' : nat) : R :=
  (a m * a m' + b m * b m') * cos (INR k * theta m m')
  + (b m * a m' - a m * b m') * sin (INR k * theta m m').

Lemma squared_amplitude (k : nat) :
  (0 < N)%nat ->
  amp (dft_outer x N k) * amp (dft_outer x N k) =
  1 / (INR N * INR N) * Rsum N (fun m => Rsum N (fun m' => pair_share k m m')).
Proof using Type.
  intros HN. assert (HNpos : 0 < INR N) by (by apply lt_0_INR).
  change (amp (dft_outer x N k)) with
    (hypot (d_re (dft_outer x N k)) (d_im (dft_outer x N k))).
  unfold hypot. rewrite sqrt_sqrt by nra.
  subst N. rewrite dft_outer_re, dft_outer_im. unfold spec_re, spec_im.
  set (N := Datatypes.length x) in *.
  set (P := fun m => a m * cos (phi k m) + b m * sin (phi k m)).
  set (Q := fun m => - a m * sin (phi k m) + b m * cos (phi k m)).
  change (Rsum N (fun n => re (nth n x zero) * cos (2 * PI * INR k * INR n / INR N)
                          + im (nth n x zero) * sin (2 * PI * INR k * INR n / INR N)))
    with (Rsum N P).
  change (Rsum N (fun n => - re (nth n x zero) * sin (2 * PI * INR k * INR n / INR N)
                          + im (nth n x zero) * cos (2 * PI * INR k * INR n / INR N)))
    with (Rsum N Q).
  transitivity (1 / (INR N * INR N) * (Rsum N P * Rsum N P + Rsum N Q * Rsum N Q));
    [field; lra|].
  f_equal. rewrite !Rsum_mult, <- Rsum_plus. apply Rsum_ext. intros m _.
  rewrite <- Rsum_plus. apply Rsum_ext. intros m' _.
  unfold pair_share, P, Q.
  replace (INR k * theta m m') with (phi k m - phi k m')
    by (unfold theta, phi; field; lra).
  rewrite cos_minus, sin_minus. ring.
Qed.

Lemma pair_share_over_frequencies (m m' : nat) :
  (m < N)%nat -> (m' < N)%nat ->
  Rsum N (fun k => pair_share k m m') =
  if decide (m' = m) then INR N * (a m' * a m' + b m' * b m') else 0.
Proof using Type.
  intros Hm Hm'. unfold pair_share.
  rewrite Rsum_plus, !Rsum_scal.
  destruct (orthogonality N m m' Hm Hm') as [Hc Hs].
  fold (theta m m') in Hc, Hs. rewrite Hc, Hs.
  destruct (decide (m = m')) as [->|Hne].
  - rewrite decide_True by done. ring.
  - rewrite decide_False by done. ring.
Qed.

Lemma energy_sums :
  (0 < N)%nat ->
  Rsum N (fun k => amp (dft_outer x N k) * amp (dft_outer x N k)) =
  Rsum N (fun m => a m * a m + b m * b m) / INR N.
Proof using Type.
  intros HN. assert (HNpos : 0 < INR N) by (by apply lt_0_INR).
  rewrite (Rsum_ext N _ (fun k => 1 / (INR N * INR N) *
             Rsum N (fun m => Rsum N (fun m' => pair_share k m m'))))
    by (intros k _; by apply squared_amplitude).
  rewrite Rsum_scal, Rsum_swap.
  rewrite (Rsum_ext N _ (fun m => INR N * (a m * a m + b m * b m))).
  - rewrite Rsum_scal. field. lra.
  - intros m Hm. rewrite Rsum_swap.
    rewrite (Rsum_ext N _ (fun m' =>
      if decide (m' = m) then INR N * (a m' * a m' + b m' * b m') else 0))
      by (intros m' Hm'; by apply pair_share_over_frequencies).
    by rewrite Rsum_single.
Qed.

End energy.

Lemma Rlist_sum_nth {B : Type} (f : B -> R) (l : list B) (d : B) :
  HomeAnimation.Rlist_sum (f <$> l) =
  Rsum (Datatypes.length l) (fun n => f (nth n l d)).
Proof.
  induction l as [|p l IH] using rev_ind; [done|].
  rewrite fmap_app, HomeAnimationFacts.Rlist_sum_app, length_app, Nat.add_1_r.
  cbn [Rsum]. rewrite IH. f_equal.
  - apply Rsum_ext. intros n Hn. by rewrite app_nth1.
  - rewrite app_nth2, Nat.sub_diag by lia. unfold HomeAnimation.Rlist_sum. cbn. lra.
Qed.

(** X10.  The squared amplitudes of the descriptors add up to the mean
    squared distance of the samples from the origin. *)
Theorem amplitudes_carry_energy (x : list complex) :
  x <> [] ->
  HomeAnimation.Rlist_sum ((fun d => (amp d)²) <$> dft x) =
  HomeAnimation.Rlist_sum ((fun p => (re p)² + (im p)²) <$> x)
  / INR (Datatypes.length x).
Proof.
  intros Hne. set (N := Datatypes.length x).
  assert (HN : (0 < N)%nat) by (subst N; destruct x; [done | cbn; lia]).
  rewrite dft_as_map, <- list_fmap_compose. fold N.
  rewrite HomeAnimationFacts.Rlist_sum_seq, (Rlist_sum_nth _ x zero). fold N.
  rewrite (Rsum_ext N _ (fun k => amp (dft_outer x N k) * amp (dft_outer x N k)))
    by (intros k _; reflexivity).
  subst N. rewrite energy_sums by done. f_equal.
Qed.

Lemma amplitudes_carry_energy_witness :
  let x := [mkComplex 0 0; mkComplex 10 0; mkComplex 10 10; mkComplex 0 10] in
  x <> [] /\
  HomeAnimation.Rlist_sum ((fun d => (amp d)²) <$> dft x) =
  HomeAnimation.Rlist_sum ((fun p => (re p)² + (im p)²) <$> x) / INR 4.
Proof.
  intros x. assert (Hne : x <> []) by discriminate.
  split; [exact Hne|]. exact (amplitudes_carry_energy x Hne).
Defined.

Lemma translation_moves_centre_only_witness :
  let x := [mkComplex 0 0; mkComplex 10 0; mkComplex 10 10; mkComplex 0 10] in
  let c := mkComplex 3 (-2) in
  (1 < Datatypes.length x)%nat /\ dft (translate c x) !! 1%nat = dft x !! 1%nat.
Proof.
  intros x c. assert (Hk : (1 < Datatypes.length x)%nat) by (cbn; lia).
  split; [exact Hk|].
  exact (proj1 (translation_moves_centre_only c x 1 Hk) ltac:(discriminate)).
Defined.

Lemma descriptor_ranges_witness :
  let x := [mkComplex 0 0; mkComplex 10 0; mkComplex 10 10; mkComplex 0 10] in
  dft x !! 1%nat = Some (dft_outer x 4 1) /\
  0 <= amp (dft_outer x 4 1) /\ - PI < phase (dft_outer x 4 1) <= PI.
Proof.
  intros x.
  assert (Hd : dft x !! 1%nat = Some (dft_outer x 4 1))
    by (apply (dft_lookup x 1); cbn; lia).
  destruct (descriptor_ranges x 1 _ Hd) as (Ha & Hp & _).
  split; [exact Hd|]. split; [exact Ha | exact Hp].
Defined.

Lemma dc_is_centroid_witness :
  let x := [mkComplex 0 0; mkComplex 10 0; mkComplex 10 10; mkComplex 0 10] in
  x <> [] /\
  exists d, dft x !! 0%nat = Some d /\ freq d = 0%nat /\
    d_re d = Rsum 4 (fun n => re (nth n x zero)) / INR 4 /\
    d_im d = Rsum 4 (fun n => im (nth n x zero)) / INR 4.
Proof.
  intros x. assert (Hne : x <> []) by discriminate.
  split; [exact Hne|]. exact (dc_is_centroid x Hne).
Defined.

End SpectrumFacts.

(** ** The sorted descriptors *)

Module FourierFacts.
Import Dft DftFacts HomeAnimation HomeAnimationFacts.
Local Open Scope R_scope.

(** [d] comes before [e]: its amplitude is not smaller. *)
Local Abbreviation before := (fun d e : descriptor => amp e <= amp d).

Lemma insert_by_amp_sorted (d : descriptor) (ds : list descriptor) :
  StronglySorted before ds -> StronglySorted before (insert_by_amp d ds).
Proof.
  induction 1 as [|e ds Hs IH He]; cbn.
  - repeat constructor.
  - destruct (Rle_dec (amp e) (amp d)) as [Hle|Hgt].
    + constructor; [by constructor|]. constructor; [done|].
      eapply Forall_impl; [exact He|]. cbn. intros f Hf. lra.
    + constructor; [done|].
      rewrite (Forall_forall (before e)). intros f Hf.
      rewrite (insert_by_amp_perm d ds) in Hf.
      apply elem_of_cons in Hf as [->|Hf]; [lra|].
      by apply (proj1 (Forall_forall (before e) ds) He).
Qed.

Lemma sort_by_amp_sorted (ds : list descriptor) :
  StronglySorted before (sort_by_amp ds).
Proof.
  induction ds as [|d ds IH]; cbn; [constructor|].
  by apply insert_by_amp_sorted.
Qed.

Lemma sorted_lookup (ds : list descriptor) (i j : nat) (d e : descriptor) :
  StronglySorted before ds -> (i <= j)%nat ->
  ds !! i = Some d -> ds !! j = Some e -> amp e <= amp d.
Proof.
  intros Hs. revert i j. induction Hs as [|f ds Hs IH Hf]; intros i j Hij Hd He.
  - by rewrite lookup_nil in Hd.
  - destruct i as [|i], j as [|j]; cbn in Hd, He; try lia.
    + injection Hd as <-. injection He as <-. lra.
    + injection Hd as <-.
      apply (proj1 (Forall_forall (before f) ds) Hf).
      by eapply list_elem_of_lookup_2.
    + apply (IH i j); [lia | done | done].
Qed.

(** X11.  The list [draw] walks holds the descriptors of the transform,
    each once, with amplitudes never increasing: the largest circle is
    first. *)
Theorem fourier_largest_first (helloPath : list (Q * Q)) (i j : nat)
    (d e : descriptor) :
  Permutation (fourier helloPath) (dft (complexPoints helloPath)) /\
  Datatypes.length (fourier helloPath) = Datatypes.length helloPath /\
  ((i <= j)%nat -> fourier helloPath !! i = Some d ->
   fourier helloPath !! j = Some e -> amp e <= amp d).
Proof.
  split; [apply sort_by_amp_perm|]. split; [apply fourier_length|].
  apply sorted_lookup, sort_by_amp_sorted.
Qed.

Lemma fourier_largest_first_witness :
  let helloPath := [(0, 0); (10, 0); (10, 10); (0, 10)]%Q in
  exists d e, fourier helloPath !! 0%nat = Some d /\
    fourier helloPath !! 3%nat = Some e /\ amp e <= amp d.
Proof.
  intros helloPath.
  destruct (lookup_lt_is_Some_2 (fourier helloPath) 0) as [d Hd];
    [rewrite fourier_length; cbn; lia|].
  destruct (lookup_lt_is_Some_2 (fourier helloPath) 3) as [e He];
    [rewrite fourier_length; cbn; lia|].
  exists d, e. split; [exact Hd|]. split; [exact He|].
  apply (proj2 (proj2 (fourier_largest_first helloPath 0 3 d e))); [lia | exact Hd | exact He].
Defined.

End FourierFacts.

(** ** The bounding box and the frame's transform *)

Module ViewFacts.
Import HomeAnimation BoundsFacts View.
Local Open Scope Q_scope.

Lemma bound_step (p lo hi : Q) :
  exists lo' hi',
    (if js_lt (Fin p) (Fin lo) then Fin p else Fin lo) = Fin lo' /\
    (if js_gt (Fin p) (Fin hi) then Fin p else Fin hi) = Fin hi' /\
    lo' <= lo /\ lo' <= p /\ (lo' = p \/ lo' = lo) /\
    hi <= hi' /\ p <= hi' /\ (hi' = p \/ hi' = hi).
Proof.
  unfold js_gt, js_lt.
  destruct (Qlt_le_dec p lo) as [Hlo|Hlo], (Qlt_le_dec hi p) as [Hhi|Hhi];
    eexists _, _; (split; [reflexivity|]); (split; [reflexivity|]);
    repeat split; auto; Lqa.lra.
Qed.

Lemma encloses_first (pt : Q * Q) :
  encloses [pt] (bounds_step
    {| minX := PosInf; maxX := NegInf; minY := PosInf; maxY := NegInf |} pt).
Proof.
  exists pt.1, pt.1, pt.2, pt.2. split; [reflexivity|]. split.
  - intros q Hq. apply list_elem_of_singleton in Hq as ->. repeat split; apply Qle_refl.
  - repeat split; exists pt; (split; [apply list_elem_of_here | reflexivity]).
Qed.

Lemma encloses_step (pts : list (Q * Q)) (b : bounds) (pt : Q * Q) :
  encloses pts b -> encloses (pts ++ [pt]) (bounds_step b pt).
Proof.
  intros (x0 & x1 & y0 & y1 & -> & Hin & Hx0 & Hx1 & Hy0 & Hy1).
  unfold bounds_step. cbn [minX maxX minY maxY].
  destruct (bound_step pt.1 x0 x1)
    as (x0' & x1' & -> & -> & Hx0le & Hx0p & Hx0c & Hx1le & Hx1p & Hx1c).
  destruct (bound_step pt.2 y0 y1)
    as (y0' & y1' & -> & -> & Hy0le & Hy0p & Hy0c & Hy1le & Hy1p & Hy1c).
  exists x0', x1', y0', y1'. split; [reflexivity|].
  assert (Hnew : pt ∈ pts ++ [pt])
    by (apply elem_of_app; right; apply list_elem_of_here).
  assert (Hold : forall q, q ∈ pts -> q ∈ pts ++ [pt])
    by (intros q Hq; apply elem_of_app; by left).
  split; [|repeat split].
  - intros q Hq. apply elem_of_app in Hq as [Hq|Hq].
    + destruct (Hin q Hq) as [[? ?] [? ?]]. repeat split; Lqa.lra.
    + apply list_elem_of_singleton in Hq as ->. repeat split; Lqa.lra.
  - destruct Hx0c as [->| ->]; [by exists pt|].
    destruct Hx0 as (q & Hq & <-). exists q. auto.
  - destruct Hx1c as [->| ->]; [by exists pt|].
    destruct Hx1 as (q & Hq & <-). exists q. auto.
  - destruct Hy0c as [->| ->]; [by exists pt|].
    destruct Hy0 as (q & Hq & <-). exists q. auto.
  - destruct Hy1c as [->| ->]; [by exists pt|].
    destruct Hy1 as (q & Hq & <-). exists q. auto.
Qed.

Lemma encloses_foldl (rest pts : list (Q * Q)) (b : bounds) :
  encloses pts b -> encloses (pts ++ rest) (foldl bounds_step b rest).
Proof.
  revert pts b. induction rest as [|pt rest IH]; intros pts b Hb.
  - by rewrite app_nil_r.
  - cbn [foldl]. replace (pts ++ pt :: rest) with ((pts ++ [pt]) ++ rest)
      by (by rewrite <- app_assoc).
    by apply IH, encloses_step.
Qed.

Lemma path_bounds_encloses (helloPath : list (Q * Q)) :
  helloPath <> [] -> encloses helloPath (path_bounds helloPath).
Proof.
  destruct helloPath as [|pt rest]; [done|]. intros _.
  unfold path_bounds. cbn [foldl].
  apply (encloses_foldl rest [pt]), encloses_first.
Qed.

(** X12.  For a non-empty path the loop over the points finds the true
    bounding box: finite bounds that every point lies within and that
    some point attains; the design's width and height are their
    differences, and the width (height) is 0 exactly when all points
    have the same x (y). *)
Theorem bounds_are_extremes (helloPath : list (Q * Q)) :
  helloPath <> [] ->
  exists x0 x1 y0 y1 : Q,
    path_bounds helloPath =
      {| minX := Fin x0; maxX := Fin x1; minY := Fin y0; maxY := Fin y1 |} /\
    (forall pt, pt ∈ helloPath -> x0 <= pt.1 <= x1 /\ y0 <= pt.2 <= y1) /\
    (exists pt, pt ∈ helloPath /\ pt.1 = x0) /\
    (exists pt, pt ∈ helloPath /\ pt.1 = x1) /\
    (exists pt, pt ∈ helloPath /\ pt.2 = y0) /\
    (exists pt, pt ∈ helloPath /\ pt.2 = y1) /\
    designWidth helloPath = Fin (x1 - x0) /\
    designHeight helloPath = Fin (y1 - y0) /\
    (x1 - x0 == 0 <->
     forall p q, p ∈ helloPath -> q ∈ helloPath -> p.1 == q.1) /\
    (y1 - y0 == 0 <->
     forall p q, p ∈ helloPath -> q ∈ helloPath -> p.2 == q.2).
Proof.
  intros Hne.
  destruct (path_bounds_encloses helloPath Hne)
    as (x0 & x1 & y0 & y1 & Hb & Hin & Hx0 & Hx1 & Hy0 & Hy1).
  exists x0, x1, y0, y1.
  do 6 (split; [done|]).
  split; [unfold designWidth; by rewrite Hb|].
  split; [unfold designHeight; by rewrite Hb|].
  split; split.
  - intros Hw p q Hp Hq.
    destruct (Hin p Hp) as [[? ?] _], (Hin q Hq) as [[? ?] _]. Lqa.lra.
  - intros Hall. destruct Hx0 as (p & Hp & <-), Hx1 as (q & Hq & <-).
    pose proof (Hall p q Hp Hq). Lqa.lra.
  - intros Hw p q Hp Hq.
    destruct (Hin p Hp) as [_ [? ?]], (Hin q Hq) as [_ [? ?]]. Lqa.lra.
  - intros Hall. destruct Hy0 as (p & Hp & <-), Hy1 as (q & Hq & <-).
    pose proof (Hall p q Hp Hq). Lqa.lra.
Qed.

(** *** The scale of a degenerate path *)

Lemma js_div_by_zero (p q : Q) : 0 < p -> q == 0 -> js_div (Fin p) (Fin q) = PosInf.
Proof.
  intros Hp Hq. unfold js_div.
  rewrite (proj2 (Qeq_bool_iff q 0) Hq).
  by rewrite (proj1 (Qgt_alt p 0) Hp).
Qed.

(** X13.  With a viewport of positive width and height and a non-empty
    path: if the design has width 0 and height 0 (all points coincide)
    the scale is [+Infinity]; if only one of the two is 0, the infinite
    quotient loses the minimum and the scale is the other quotient times
    0.9, a finite number. *)
Theorem scale_of_degenerate_path (helloPath : list (Q * Q)) (W H : Q) :
  0 < W -> 0 < H -> helloPath <> [] ->
  exists w h : Q,
    designWidth helloPath = Fin w /\ designHeight helloPath = Fin h /\
    (w == 0 -> h == 0 -> scale (Fin W) (Fin H) helloPath = PosInf) /\
    (w == 0 -> ~ h == 0 ->
     exists s, scale (Fin W) (Fin H) helloPath = Fin s /\ s == H / h * (9 # 10)) /\
    (~ w == 0 -> h == 0 ->
     exists s, scale (Fin W) (Fin H) helloPath = Fin s /\ s == W / w * (9 # 10)).
Proof.
  intros HW HH Hne.
  destruct (path_bounds_boxed helloPath Hne) as (x0 & x1 & y0 & y1 & Hb & _ & _).
  exists (x1 - x0), (y1 - y0).
  assert (Hw : designWidth helloPath = Fin (x1 - x0))
    by (unfold designWidth; by rewrite Hb).
  assert (Hh : designHeight helloPath = Fin (y1 - y0))
    by (unfold designHeight; by rewrite Hb).
  split; [done|]. split; [done|].
  unfold scale, scaleX, scaleY. rewrite Hw, Hh. split; [|split].
  - intros Hw0 Hh0. rewrite !js_div_by_zero by done. reflexivity.
  - intros Hw0 Hh0. rewrite (js_div_by_zero W), (js_div_finite H) by done.
    eexists. split; reflexivity.
  - intros Hw0 Hh0. rewrite (js_div_finite W), (js_div_by_zero H) by done.
    eexists. split; reflexivity.
Qed.

Lemma scale_of_degenerate_path_witness :
  let helloPath := [(0, 0); (0, 5)] in
  0 < 300 /\ 0 < 200 /\ helloPath <> [] /\
  exists s, scale (Fin 300) (Fin 200) helloPath = Fin s /\ s == 36.
Proof.
  intros helloPath.
  assert (HW : 0 < 300) by reflexivity. assert (HH : 0 < 200) by reflexivity.
  assert (Hne : helloPath <> []) by discriminate.
  split; [exact HW|]. split; [exact HH|]. split; [exact Hne|].
  destruct (scale_of_degenerate_path helloPath 300 200 HW HH Hne)
    as (w & h & Hw & Hh & _ & Hcol & _).
  vm_compute in Hw, Hh. injection Hw as <-. injection Hh as <-.
  destruct Hcol as (s & Hs & Heq); [reflexivity | discriminate |].
  exists s. split; [exact Hs|]. rewrite Heq. reflexivity.
Defined.

(** *** The design inside the viewport *)

Lemma js_div_two (p : Q) : js_div (Fin p) (Fin 2) = Fin (p / 2).
Proof. by apply js_div_finite. Qed.

(** One coordinate: a point between the bounds lands within the middle
    nine tenths of the viewport. *)
Lemma fits_along_axis (V v0 v1 m x : Q) :
  0 < V -> v0 <= x <= v1 -> 0 <= m -> m * (v1 - v0) <= V ->
  V * (1 # 20) <=
    1 * (m * (9 # 10)) * x
    + (1 * (m * (9 # 10)) * - (v0 + (v1 - v0) / 2) + (1 * (V / 2) + 0))
  <= V * (19 # 20).
Proof.
  intros HV [Hlo Hhi] Hm HmV.
  assert (Hc : 1 * (m * (9 # 10)) * x
    + (1 * (m * (9 # 10)) * - (v0 + (v1 - v0) / 2) + (1 * (V / 2) + 0))
    == V * (1 # 2) + (9 # 20) * (m * (2 * x - v0 - v1))) by field.
  rewrite Hc.
  assert (H1 : m * (2 * x - v0 - v1) <= m * (v1 - v0))
    by (rewrite !(Qmult_comm m); apply Qmult_le_compat_r; Lqa.lra).
  assert (H2 : m * (v0 - v1) <= m * (2 * x - v0 - v1))
    by (rewrite !(Qmult_comm m); apply Qmult_le_compat_r; Lqa.lra).
  assert (H3 : m * (v0 - v1) == - (m * (v1 - v0))) by ring.
  Lqa.lra.
Qed.

(** X14.  With a viewport of positive width [W] and height [H] and a
    path that is degenerate in neither dimension, the transform [draw]
    sets puts every point of the path within the middle nine tenths of
    the viewport, in CSS pixels. *)
Theorem design_fits_viewport (helloPath : list (Q * Q)) (W H w h : Q) (pt : Q * Q) :
  0 < W -> 0 < H ->
  designWidth helloPath = Fin w -> designHeight helloPath = Fin h ->
  ~ w == 0 -> ~ h == 0 ->
  pt ∈ helloPath ->
  let at_ := apply (draw_transform (Fin W) (Fin H) helloPath css_pixels) pt in
  W * (1 # 20) <= at_.1 <= W * (19 # 20) /\
  H * (1 # 20) <= at_.2 <= H * (19 # 20).
Proof.
  intros HW HH Hw Hh Hw0 Hh0 Hpt.
  assert (Hne : helloPath <> []) by (intros ->; by apply elem_of_nil in Hpt).
  destruct (path_bounds_encloses helloPath Hne)
    as (x0 & x1 & y0 & y1 & Hb & Hin & _).
  destruct (Hin pt Hpt) as [Hx Hy].
  assert (Hw' : w = x1 - x0)
    by (unfold designWidth in Hw; rewrite Hb in Hw; cbn in Hw; congruence).
  assert (Hh' : h = y1 - y0)
    by (unfold designHeight in Hh; rewrite Hb in Hh; cbn in Hh; congruence).
  subst w h.
  assert (Hwpos : 0 < x1 - x0) by Lqa.lra.
  assert (Hhpos : 0 < y1 - y0) by Lqa.lra.
  unfold draw_transform, designCenterX, designCenterY, scale, scaleX, scaleY.
  rewrite Hw, Hh, Hb. cbn [minX minY]. rewrite !js_div_two, !js_div_finite by done.
  destruct (js_min_finite (W / (x1 - x0)) (H / (y1 - y0))) as (m & -> & Hm).
  cbn [js_mul js_add js_neg ctx_translate ctx_scale css_pixels apply a d e f fst snd].
  assert (HqW : 0 < W / (x1 - x0)) by (apply Qlt_shift_div_l; Lqa.lra).
  assert (HqH : 0 < H / (y1 - y0)) by (apply Qlt_shift_div_l; Lqa.lra).
  assert (Hm0 : 0 <= m).
  { rewrite Hm. apply Q.min_glb; by apply Qlt_le_weak. }
  assert (HmW : m * (x1 - x0) <= W).
  { assert (Hle : m <= W / (x1 - x0)) by (rewrite Hm; apply Q.le_min_l).
    apply (Qmult_le_compat_r _ _ (x1 - x0)) in Hle; [|Lqa.lra].
    by rewrite (Qmult_comm (W / _)), Qmult_div_r in Hle. }
  assert (HmH : m * (y1 - y0) <= H).
  { assert (Hle : m <= H / (y1 - y0)) by (rewrite Hm; apply Q.le_min_r).
    apply (Qmult_le_compat_r _ _ (y1 - y0)) in Hle; [|Lqa.lra].
    by rewrite (Qmult_comm (H / _)), Qmult_div_r in Hle. }
  split; by apply fits_along_axis.
Qed.

Lemma design_fits_viewport_witness :
  let helloPath := [(0, 0); (10, 0); (10, 10); (0, 10)] in
  let at_ := apply (draw_transform (Fin 300) (Fin 200) helloPath css_pixels) (10, 0) in
  300 * (1 # 20) <= at_.1 <= 300 * (19 # 20) /\
  200 * (1 # 20) <= at_.2 <= 200 * (19 # 20).
Proof.
  intros helloPath.
  apply (design_fits_viewport helloPath 300 200 (10 + - 0) (10 + - 0) (10, 0)).
  - reflexivity.
  - reflexivity.
  - reflexivity.
  - reflexivity.
  - discriminate.
  - discriminate.
  - apply list_elem_of_further, list_elem_of_here.
Defined.

Lemma bounds_are_extremes_witness :
  let helloPath := [(0, 0); (10, 0); (10, 10); (0, 10)] in
  helloPath <> [] /\
  exists x0 x1 : Q, designWidth helloPath = Fin (x1 - x0) /\
    forall pt, pt ∈ helloPath -> x0 <= pt.1 <= x1.
Proof.
  intros helloPath. assert (Hne : helloPath <> []) by discriminate.
  split; [exact Hne|].
  destruct (bounds_are_extremes helloPath Hne)
    as (x0 & x1 & y0 & y1 & _ & Hin & _ & _ & _ & _ & Hw & _).
  exists x0, x1. split; [exact Hw|]. intros pt Hpt. exact (proj1 (Hin pt Hpt)).
Defined.

End ViewFacts.

(** ** The scale, for every path *)

Module ScaleFacts.
Import HomeAnimation BoundsFacts View ViewFacts.
Local Open Scope Q_scope.

(** C3 (as the code has it).  No dimension is clamped: the scale is
    [min (W / w, H / h) * 0.9] on the raw width [w] and height [h] of the
    bounding box, which are 0 exactly when all points share their x, or
    their y.  For an empty path the scale is 0.  For a non-empty path,
    when neither dimension is 0 the scale is the finite number
    [min (W / w) (H / h) * 9/10]; in a viewport of positive width and
    height, when one dimension only is 0 its infinite quotient loses the
    minimum and the scale is the other quotient times 9/10, finite too;
    when both are 0 the scale is [+Infinity].  So the scale is finite for
    every path but those, not empty, whose points all coincide. *)
Theorem scale_finite_unless_single_point (helloPath : list (Q * Q)) (W H : Q) :
  (helloPath = [] ->
   exists s, scale (Fin W) (Fin H) helloPath = Fin s /\ s == 0) /\
  (helloPath <> [] ->
   exists w h : Q,
     designWidth helloPath = Fin w /\ designHeight helloPath = Fin h /\
     0 <= w /\ 0 <= h /\
     (w == 0 <-> forall p q, p ∈ helloPath -> q ∈ helloPath -> p.1 == q.1) /\
     (h == 0 <-> forall p q, p ∈ helloPath -> q ∈ helloPath -> p.2 == q.2) /\
     (~ w == 0 -> ~ h == 0 ->
      exists s, scale (Fin W) (Fin H) helloPath = Fin s /\
                s == Qmin (W / w) (H / h) * (9 # 10)) /\
     (0 < W -> 0 < H ->
      (w == 0 -> ~ h == 0 ->
       exists s, scale (Fin W) (Fin H) helloPath = Fin s /\
                 s == H / h * (9 # 10)) /\
      (~ w == 0 -> h == 0 ->
       exists s, scale (Fin W) (Fin H) helloPath = Fin s /\
                 s == W / w * (9 # 10)) /\
      (w == 0 -> h == 0 -> scale (Fin W) (Fin H) helloPath = PosInf) /\
      (is_finite (scale (Fin W) (Fin H) helloPath) = true <->
       ~ (w == 0 /\ h == 0)))).
Proof.
  split.
  - intros ->. eexists. split; reflexivity.
  - intros Hne.
    destruct (path_bounds_encloses helloPath Hne)
      as (x0 & x1 & y0 & y1 & Hb & Hin & Hx0 & Hx1 & Hy0 & Hy1).
    exists (x1 - x0), (y1 - y0).
    assert (Hw : designWidth helloPath = Fin (x1 - x0))
      by (unfold designWidth; by rewrite Hb).
    assert (Hh : designHeight helloPath = Fin (y1 - y0))
      by (unfold designHeight; by rewrite Hb).
    assert (Hx : x0 <= x1).
    { destruct Hx0 as (p & Hp & <-). by destruct (Hin p Hp) as [[_ ?] _]. }
    assert (Hy : y0 <= y1).
    { destruct Hy0 as (p & Hp & <-). by destruct (Hin p Hp) as [_ [_ ?]]. }
    split; [done|]. split; [done|].
    split; [Lqa.lra|]. split; [Lqa.lra|].
    split; [|split].
    { split.
      - intros Hw0 p q Hp Hq.
        destruct (Hin p Hp) as [[? ?] _], (Hin q Hq) as [[? ?] _]. Lqa.lra.
      - intros Hall. destruct Hx0 as (p & Hp & <-), Hx1 as (q & Hq & <-).
        pose proof (Hall p q Hp Hq). Lqa.lra. }
    { split.
      - intros Hh0 p q Hp Hq.
        destruct (Hin p Hp) as [_ [? ?]], (Hin q Hq) as [_ [? ?]]. Lqa.lra.
      - intros Hall. destruct Hy0 as (p & Hp & <-), Hy1 as (q & Hq & <-).
        pose proof (Hall p q Hp Hq). Lqa.lra. }
    unfold scale, scaleX, scaleY. rewrite Hw, Hh.
    assert (Hboth : ~ x1 - x0 == 0 -> ~ y1 - y0 == 0 ->
      exists s,
        js_mul (js_min (js_div (Fin W) (Fin (x1 - x0)))
                       (js_div (Fin H) (Fin (y1 - y0)))) (Fin (9 # 10)) = Fin s /\
        s == Qmin (W / (x1 - x0)) (H / (y1 - y0)) * (9 # 10)).
    { intros Hw0 Hh0. rewrite !js_div_finite by done.
      destruct (js_min_finite (W / (x1 - x0)) (H / (y1 - y0))) as (m & -> & Hm).
      exists (m * (9 # 10)). split; [reflexivity|]. by rewrite Hm. }
    split; [exact Hboth|].
    intros HW HH.
    assert (Hcol : x1 - x0 == 0 -> ~ y1 - y0 == 0 ->
      exists s,
        js_mul (js_min (js_div (Fin W) (Fin (x1 - x0)))
                       (js_div (Fin H) (Fin (y1 - y0)))) (Fin (9 # 10)) = Fin s /\
        s == H / (y1 - y0) * (9 # 10)).
    { intros Hw0 Hh0. rewrite (js_div_by_zero W), (js_div_finite H) by done.
      eexists. split; reflexivity. }
    assert (Hrow : ~ x1 - x0 == 0 -> y1 - y0 == 0 ->
      exists s,
        js_mul (js_min (js_div (Fin W) (Fin (x1 - x0)))
                       (js_div (Fin H) (Fin (y1 - y0)))) (Fin (9 # 10)) = Fin s /\
        s == W / (x1 - x0) * (9 # 10)).
    { intros Hw0 Hh0. rewrite (js_div_finite W), (js_div_by_zero H) by done.
      eexists. split; reflexivity. }
    assert (Hdot : x1 - x0 == 0 -> y1 - y0 == 0 ->
      js_mul (js_min (js_div (Fin W) (Fin (x1 - x0)))
                     (js_div (Fin H) (Fin (y1 - y0)))) (Fin (9 # 10)) = PosInf).
    { intros Hw0 Hh0. rewrite !js_div_by_zero by done. reflexivity. }
    do 3 (split; [done|]).
    destruct (Qeq_dec (x1 - x0) 0) as [Hw0|Hw0],
             (Qeq_dec (y1 - y0) 0) as [Hh0|Hh0].
    + rewrite (Hdot Hw0 Hh0). split; [done|]. intros Hnot. by destruct Hnot.
    + destruct (Hcol Hw0 Hh0) as (s & -> & _). split; [|done].
      intros _ [_ ?]. done.
    + destruct (Hrow Hw0 Hh0) as (s & -> & _). split; [|done].
      intros _ [? _]. done.
    + destruct (Hboth Hw0 Hh0) as (s & -> & _). split; [|done].
      intros _ [? _]. done.
Qed.

Lemma scale_finite_unless_single_point_witness :
  let helloPath := [(0, 0); (0, 5)] in
  helloPath <> [] /\ 0 < 300 /\ 0 < 200 /\
  designWidth helloPath = Fin (0 - 0) /\ designHeight helloPath = Fin (5 - 0) /\
  exists s, scale (Fin 300) (Fin 200) helloPath = Fin s /\ s == 36.
Proof.
  intros helloPath.
  assert (Hne : helloPath <> []) by discriminate.
  assert (HW : 0 < 300) by reflexivity. assert (HH : 0 < 200) by reflexivity.
  split; [exact Hne|]. split; [exact HW|]. split; [exact HH|].
  destruct (proj2 (scale_finite_unless_single_point helloPath 300 200) Hne)
    as (w & h & Hw & Hh & _ & _ & _ & _ & _ & Hview).
  split; [reflexivity|]. split; [reflexivity|].
  vm_compute in Hw, Hh. injection Hw as <-. injection Hh as <-.
  destruct (Hview HW HH) as (Hcol & _).
  destruct Hcol as (s & Hs & Heq); [reflexivity | discriminate |].
  exists s. split; [exact Hs|]. rewrite Heq. reflexivity.
Defined.

End ScaleFacts.

(** ** The throttle and the trail *)

Module TrailFacts.
Import Dft DftFacts HomeAnimation HomeAnimationFacts Trail.
Local Open Scope R_scope.

(** *** The throttle *)

Lemma draw_open_stamp (ds : list descriptor) (ct : R) (w : state * scheduler) :
  throttle_open ct w.1 -> lastFrameTime (draw ds ct w).1 = ct.
Proof.
  intros Hopen. destruct (draw_state ds ct w) as (_ & _ & Hl & _). rewrite Hl.
  unfold throttle_open in Hopen. rewrite <- stamped_lastFrameTime in Hopen.
  destruct (Rgt_dec _ _) as [_|Hn]; [|contradiction].
  unfold frame. by destruct (Rge_dec _ _).
Qed.

(** X15.  The tick that follows a resize never draws: it only takes the
    time stamp.  And after a frame drawn at time [ct] (other than 0, the
    value that marks "no frame yet"), a tick at most 1000/60 ms later
    changes neither the time nor the trail. *)
Theorem throttle_spaces_frames (ds : list descriptor) (w : state * scheduler)
    (ct ct' : R) :
  (time (draw ds ct' (resizeCanvas w)).1 = 0 /\
   path (draw ds ct' (resizeCanvas w)).1 = path (resizeCanvas w).1) /\
  (ct <> 0 -> throttle_open ct w.1 -> ct' - ct <= 1000 / 60 ->
   time (draw ds ct' (draw ds ct w)).1 = time (draw ds ct w).1 /\
   path (draw ds ct' (draw ds ct w)).1 = path (draw ds ct w).1).
Proof.
  split.
  - assert (Hshut : ~ throttle_open ct' (resizeCanvas w).1).
    { unfold throttle_open. destruct w as [s h]. cbn [resizeCanvas].
      destruct (requestAnimationFrame _) as [id h'] eqn:E. cbn [fst lastFrameTime].
      destruct (Req_dec_T 0 0) as [_|Hne]; [|by destruct Hne].
      unfold animationSpeed. lra. }
    destruct (draw_shut ds ct' _ Hshut) as [-> ->]. split; [|done].
    by destruct w.
  - intros Hct Hopen Hsoon. apply draw_shut.
    unfold throttle_open. rewrite (draw_open_stamp ds ct w Hopen).
    destruct (Req_dec_T ct 0); [done|]. unfold animationSpeed. lra.
Qed.

(** *** The trail *)

Lemma trail_after_length (ds : list descriptor) (k : nat) :
  Datatypes.length (trail_after ds k) = k.
Proof. induction k as [|k IH]; cbn; [done | by rewrite IH]. Qed.

Lemma trail_after_lookup (ds : list descriptor) (k i : nat) :
  (i < k)%nat ->
  trail_after ds k !! i = Some (tip_at ds (INR (k - 1 - i) * dt ds)).
Proof.
  revert i. induction k as [|k IH]; intros i Hi; [lia|].
  destruct i as [|i]; cbn [trail_after lookup list_lookup].
  - by replace (S k - 1 - 0)%nat with k by lia.
  - rewrite IH by lia. by replace (S k - 1 - S i)%nat with (k - 1 - i)%nat by lia.
Qed.

Lemma trail_ok_resize (ds : list descriptor) (w : state * scheduler) :
  (1 <= Datatypes.length ds)%nat -> trail_ok ds (resizeCanvas w).1.
Proof.
  intros HN. exists 0%nat. destruct w as [s h]. cbn.
  split; [lia|]. split; [lra|]. apply RingSequenceFacts.repr_clear.
Qed.

Lemma trail_ok_draw (ds : list descriptor) (ct : R) (w : state * scheduler) :
  (1 <= Datatypes.length ds)%nat -> trail_ok ds w.1 -> trail_ok ds (draw ds ct w).1.
Proof.
  intros HN (k & Hk & Ht & Hr). pose proof (dt_pos ds HN) as Hdt.
  pose proof (full_turn ds HN) as Hturn.
  assert (Hnext : time w.1 + dt ds = INR (S k) * dt ds) by (rewrite S_INR, Ht; lra).
  destruct (throttle_dec ct w.1) as [Hopen|Hshut].
  - destruct (draw_open ds ct w Hopen) as [Hlo Hhi].
    destruct (Rlt_dec (time w.1 + dt ds) (2 * PI)) as [Hcmp|Hcmp].
    + destruct (Hlo Hcmp) as [Ht' Hp']. exists (S k).
      rewrite Ht', Hp'. split; [|split; [done|]].
      * apply INR_lt. apply (Rmult_lt_reg_r (dt ds)); [done|]. lra.
      * cbn [trail_after]. rewrite <- Ht.
        apply (RingSequenceFacts.repr_prepend (path w.1) _
                 {| x := (epicycle ds (time w.1)).1; y := (epicycle ds (time w.1)).2 |} Hr).
    + destruct (Hhi ltac:(lra)) as [Ht' Hp']. exists 0%nat.
      rewrite Ht', Hp'. split; [lia|]. split; [|apply RingSequenceFacts.repr_clear].
      assert (Hfull : time w.1 + dt ds = 2 * PI).
      { assert (Hle : INR (S k) <= INR (Datatypes.length ds)) by (apply le_INR; lia).
        assert (INR (S k) * dt ds <= INR (Datatypes.length ds) * dt ds)
          by (apply Rmult_le_compat_r; lra).
        lra. }
      rewrite Hfull, js_rem_self by (pose proof PI_RGT_0; lra). cbn. lra.
  - destruct (draw_shut ds ct w Hshut) as [Ht' Hp']. exists k.
    by rewrite Ht', Hp'.
Qed.

Lemma trail_ok_play (ds : list descriptor) (es : list event) :
  (1 <= Datatypes.length ds)%nat -> trail_ok ds (play ds es).1.
Proof.
  intros HN. unfold play.
  generalize (trail_ok_resize ds (boot ds) HN).
  generalize (resizeCanvas (boot ds)) as w.
  induction es as [|ev es IH]; intros w Hw; [done|].
  cbn [foldl]. apply IH. destruct ev as [|handle ct]; cbn [react].
  - by apply trail_ok_resize.
  - case_decide; [|done]. by apply trail_ok_draw.
Qed.

(** X16.  With the descriptors of a non-empty path, at any point of a
    run the trail holds the points of the path themselves: with [k]
    entries on the trail, the clock is at [k * dt] and [path[i]] is the
    path's point number [k - 1 - i]; the newest entry is first, the
    path's first point last. *)
Theorem trail_replays_path (helloPath : list (Q * Q)) (es : list event) (i : Z) :
  helloPath <> [] ->
  let ds := fourier helloPath in
  let w := play ds es in
  let k := RingSequence.length (path w.1) in
  (0 <= k < Z.of_nat (Datatypes.length helloPath))%Z /\
  time w.1 = IZR k * dt ds /\
  ((0 <= i < k)%Z ->
   exists pt, helloPath !! Z.to_nat (k - 1 - i) = Some pt /\
     RingSequence.get i (path w.1) =
       RingSequence.Item {| x := Q2R pt.1; y := Q2R pt.2 |}).
Proof.
  intros Hne ds w k.
  assert (Hlen : Datatypes.length ds = Datatypes.length helloPath)
    by apply fourier_length.
  assert (HN : (1 <= Datatypes.length ds)%nat)
    by (rewrite Hlen; destruct helloPath; [done | cbn; lia]).
  destruct (trail_ok_play ds es HN) as (n & Hn & Ht & Hr). fold w in Ht, Hr.
  pose proof Hr as (Hk & _ & _). fold k in Hk. rewrite trail_after_length in Hk.
  split; [lia|]. split; [by rewrite Hk, <- INR_IZR_INZ|].
  intros Hi.
  destruct (RingSequenceFacts.repr_get _ _ i Hr) as (a & Ha & Hg); [by fold k|].
  rewrite trail_after_lookup in Ha by lia. injection Ha as <-.
  destruct (lookup_lt_is_Some_2 helloPath (n - 1 - Z.to_nat i)) as [pt Hpt]; [lia|].
  exists pt. split; [rewrite <- Hpt; f_equal; lia|].
  rewrite Hg. f_equal. unfold tip_at.
  replace (INR (n - 1 - Z.to_nat i) * dt ds)
    with (2 * PI * INR (n - 1 - Z.to_nat i) / INR (Datatypes.length ds))
    by (unfold dt; field; apply not_0_INR; lia).
  subst ds. by rewrite (fourier_round_trip helloPath _ pt Hpt).
Qed.

Lemma throttle_spaces_frames_witness :
  let w := play one_circle [Tick 1 100] in
  200 <> 0 /\ throttle_open 200 w.1 /\ 210 - 200 <= 1000 / 60 /\
  time (draw one_circle 210 (draw one_circle 200 w)).1 =
    time (draw one_circle 200 w).1.
Proof.
  intros w.
  assert (Hct : 200 <> 0) by lra.
  assert (Hopen : throttle_open 200 w.1) by apply first_tick_opens.
  assert (Hsoon : 210 - 200 <= 1000 / 60) by lra.
  split; [exact Hct|]. split; [exact Hopen|]. split; [exact Hsoon|].
  exact (proj1 (proj2 (throttle_spaces_frames one_circle w 200 210) Hct Hopen Hsoon)).
Defined.

(** Two ticks after the set-up, the trail holds the first point. *)
Lemma second_tick_length (ds : list descriptor) :
  (2 <= Datatypes.length ds)%nat ->
  RingSequence.length (path (play ds [Tick 1 100; Tick 2 200]).1) = 1%Z.
Proof.
  intros HN.
  change (play ds [Tick 1 100; Tick 2 200])
    with (react ds (play ds [Tick 1 100]) (Tick 2 200)).
  set (w := play ds [Tick 1 100]).
  destruct (one_request_play ds [Tick 1 100]) as (id & Hid & _ & Hpend & _).
  fold w in Hid, Hpend.
  assert (Hid2 : animationFrameId w.1 = Some 2%nat) by reflexivity.
  rewrite Hid2 in Hid. injection Hid as <-.
  cbn [react]. rewrite decide_True by (rewrite Hpend; by apply elem_of_singleton).
  destruct (first_tick ds 100) as (Ht & _ & Hlen); [lra|]. fold w in Ht, Hlen.
  pose proof (first_tick_opens ds) as Hopen. fold w in Hopen.
  destruct (draw_open ds 200 (w.1, remove_request 2 w.2) Hopen) as [Hlo _].
  cbn [fst] in Hlo. destruct Hlo as [_ ->].
  - rewrite Ht, Rplus_0_l. pose proof (full_turn ds ltac:(lia)) as Hturn.
    pose proof (dt_pos ds ltac:(lia)) as Hdt.
    assert (2 <= INR (Datatypes.length ds)) by (apply (le_INR 2); lia). nra.
  - by rewrite RingSequenceFacts.length_prepend, Hlen.
Qed.

Lemma trail_replays_path_witness :
  let helloPath := [(3, 4); (10, 0); (10, 10); (0, 10)]%Q in
  let w := play (fourier helloPath) [Tick 1 100; Tick 2 200] in
  helloPath <> [] /\
  RingSequence.length (path w.1) = 1%Z /\
  RingSequence.get 0 (path w.1) = RingSequence.Item {| x := Q2R 3; y := Q2R 4 |}.
Proof.
  intros helloPath w.
  assert (Hne : helloPath <> []) by discriminate.
  assert (Hlen : RingSequence.length (path w.1) = 1%Z)
    by (apply second_tick_length; rewrite fourier_length; cbn; lia).
  split; [exact Hne|]. split; [exact Hlen|].
  destruct (trail_replays_path helloPath [Tick 1 100; Tick 2 200] 0 Hne)
    as (_ & _ & Hget).
  fold w in Hget. rewrite Hlen in Hget.
  destruct Hget as (pt & Hpt & Hg); [lia|].
  cbn in Hpt. injection Hpt as <-. exact Hg.
Defined.

End TrailFacts.

(** ** Reading the list by index *)

Module ListProxyFacts.
Import RingSequence ListProxy.

Lemma digit_char (x : N) :
  (x < 10)%N ->
  is_digit (pretty_N_char x) = true /\ digit_value (pretty_N_char x) = Z.of_N x.
Proof.
  intros Hx.
  assert (x = 0 \/ x = 1 \/ x = 2 \/ x = 3 \/ x = 4 \/ x = 5 \/ x = 6 \/ x = 7
          \/ x = 8 \/ x = 9)%N as Hc by lia.
  repeat (destruct Hc as [->|Hc]; [by vm_compute|]). by subst.
Qed.

(** The numeral of [x] in front of [s] reads as [x] followed by [s]. *)
Lemma numeral_reads_back (x : N) (s : string) :
  parse_digits 0 (pretty_N_go x s) = parse_digits (Z.of_N x) s /\
  all_digits (pretty_N_go x s) = all_digits s /\
  (s <> EmptyString -> pretty_N_go x s <> EmptyString).
Proof.
  revert s. induction (N.lt_wf_0 x) as [x _ IH]. intros s.
  destruct (decide (x = 0)%N) as [->|Hx].
  - by rewrite pretty_N_go_0.
  - rewrite pretty_N_go_step by lia.
    destruct (IH (x `div` 10)%N) with (s := String (pretty_N_char (x `mod` 10)) s)
      as (Hp & Ha & Hn); [apply N.div_lt; lia|].
    destruct (digit_char (x `mod` 10)) as [Hd Hv]; [by apply N.mod_lt|].
    split; [|split].
    + rewrite Hp. cbn [parse_digits]. rewrite Hv. f_equal.
      rewrite (N.div_mod x 10) at 3 by done. lia.
    + rewrite Ha. cbn [all_digits]. by rewrite Hd.
    + intros _. by apply Hn.
Qed.

Lemma numeral_is_index (i : Z) :
  (0 <= i)%Z -> is_index (pretty i) = true /\ parseInt (pretty i) = i.
Proof.
  intros Hi. destruct i as [|p|p]; [by vm_compute | | lia].
  change (pretty (Z.pos p)) with (pretty_N_go (N.pos p) "").
  destruct (numeral_reads_back (N.pos p) "") as (Hp & Ha & _).
  assert (Hne : pretty_N_go (N.pos p) "" <> EmptyString).
  { rewrite pretty_N_go_step by lia.
    by apply (numeral_reads_back (N.pos p `div` 10)). }
  split.
  - unfold is_index. destruct (pretty_N_go (N.pos p) "") eqn:E; [done|].
    by rewrite Ha.
  - unfold parseInt. by rewrite Hp.
Qed.

(** X17.  Through the proxy of [List.create], reading the property named
    by the decimal numeral of an integer [i >= 0] is [get(i)]; the
    numeral of a negative integer, and [length], are not taken for
    indices and go to the list object itself. *)
Theorem proxy_reads_by_index {A P : Type} (own : string -> P) (l : List A) (i : Z) :
  ((0 <= i)%Z -> proxy_get own l (pretty i) = inl (get i l)) /\
  ((i < 0)%Z -> proxy_get own l (pretty i) = inr (own (pretty i))) /\
  proxy_get own l "length" = inr (own "length").
Proof.
  split; [|split].
  - intros Hi. unfold proxy_get. destruct (numeral_is_index i Hi) as [-> ->]. done.
  - intros Hi. destruct i as [|p|p]; [lia | lia |]. reflexivity.
  - reflexivity.
Qed.

Lemma proxy_reads_by_index_witness :
  let l := run [Append 7%nat; Prepend 5%nat] (constructor 2) in
  (0 <= 1)%Z /\ proxy_get (fun _ => tt) l "1" = inl (Item 7%nat).
Proof.
  intros l. split; [lia|].
  exact (proj1 (proxy_reads_by_index (fun _ => tt) l 1) ltac:(lia)).
Defined.

End ListProxyFacts.
